(** * Avatar Animator: the session controller of [src/App.tsx]

  The component [App] keeps eight pieces of React state and drives one
  long-running external job (video generation) through an [async]
  function, [generateAnimation].  The development below embeds

  - the state and its setters (lines 33-40),
  - [checkApiKey], [handleSelectKey], [handleImageUpload] (lines 48-72),
  - [generateAnimation] (lines 74-143), as a resumable task that is cut at
    each [await], and
  - the parts of the rendered tree that gate user actions (lines 145-165
    and 271-297),

  and proves properties of single runs, of the poll loop, and of every
  reachable session. *)

From Stdlib Require Import String Ascii List Bool Arith ZArith Lia.
Import ListNotations.
Local Open Scope string_scope.
Local Open Scope list_scope.

(** ** JavaScript values used by the component *)

Module JS.

(** A [string | null | undefined] value is truthy when it is a non-empty
    string. *)
Definition truthy (v : option string) : bool :=
  match v with
  | Some (String _ _) => true
  | _ => false
  end.

(** [v || d] on such a value. *)
Definition or_default (v : option string) (d : string) : string :=
  match v with
  | Some (String c s) => String c s
  | _ => d
  end.

(** [hay.includes(needle)]. *)
Fixpoint includes (needle hay : string) : bool :=
  String.prefix needle hay ||
  match hay with
  | EmptyString => false
  | String _ rest => includes needle rest
  end.

(** [s.split(sep)] for a one-character separator: never empty. *)
Fixpoint split (sep : ascii) (s : string) : list string :=
  match s with
  | EmptyString => [EmptyString]
  | String c rest =>
      if Ascii.eqb c sep then EmptyString :: split sep rest
      else match split sep rest with
           | piece :: pieces => String c piece :: pieces
           | [] => [String c EmptyString]
           end
  end.

(** [xs[i]], [undefined] out of range. *)
Definition at_index {A : Type} (xs : list A) (i : nat) : option A :=
  nth_error xs i.

(** A thrown value, as far as the [catch] block reads it: an object whose
    [message] is a string or is missing. *)
Record Error := { message : option string }.

Definition new_Error (msg : string) : Error := {| message := Some msg |}.

(** The outcome of awaiting a promise. *)
Inductive Settled (A : Type) : Type :=
| Resolved (value : A)
| Rejected (reason : Error).
Arguments Resolved {A} value.
Arguments Rejected {A} reason.

End JS.
Import JS.

(** ** The external generation service, as the component sees it *)

(** [operation.response?.generatedVideos?.[0]?.video?.uri] walks this
    structure; every link may be missing. *)
Record Video := { uri : option string }.
Record GeneratedVideo := { video : option Video }.
Record GenerateVideosResponse :=
  { generatedVideos : option (list GeneratedVideo) }.

(** The operation handle.  [done] is read by [!operation.done], so a missing
    flag counts as [false]. *)
Record Operation := {
  name : string;
  done : bool;
  response : option GenerateVideosResponse
}.

Definition bind_opt {A B : Type} (v : option A) (f : A -> option B) : option B :=
  match v with
  | Some a => f a
  | None => None
  end.

Definition video_uri (operation : Operation) : option string :=
  bind_opt (response operation) (fun r =>
  bind_opt (generatedVideos r) (fun vs =>
  bind_opt (at_index vs 0) (fun gv =>
  bind_opt (video gv) uri))).

(** The argument of [ai.models.generateVideos] (lines 91-103). *)
Record ImagePayload := {
  imageBytes : option string;
  mimeType : option string
}.

Record VideoConfig := {
  numberOfVideos : nat;
  resolution : string;
  config_aspectRatio : string
}.

Record Request := {
  model : string;
  request_prompt : string;
  image : ImagePayload;
  config : VideoConfig
}.

(** What the page is given: the types of a fetch response and of a blob,
    [URL.createObjectURL], and the value of [process.env.API_KEY], taken to
    be set (a string), so that constructing the client on line 83 succeeds. *)
Class Host := {
  Response : Type;
  Blob : Type;
  createObjectURL : Blob -> string;
  API_KEY : string
}.

(** ** Session state (lines 33-40) *)

Record State := {
  hasApiKey : bool;
  selectedImage : option string;
  prompt : string;
  aspectRatio : string;
  isGenerating : bool;
  loadingStep : string;
  generatedVideoUrl : option string;
  error : option string
}.

Definition initial_state : State := {|
  hasApiKey := false;
  selectedImage := None;
  prompt := EmptyString;
  aspectRatio := "9:16";
  isGenerating := false;
  loadingStep := EmptyString;
  generatedVideoUrl := None;
  error := None
|}.

(** Lines 19-30. *)
Definition ASPECT_RATIOS : list (string * string) :=
  [ ("9:16 (Portrait)", "9:16"); ("16:9 (Landscape)", "16:9") ].

Definition PRESET_POSITIONS : list string :=
  [ "Walking confidently through a modern office, waving at colleagues";
  "Sitting at a coffee shop table, working on a laptop, and taking a sip of coffee";
  "Giving a professional presentation, gesturing towards a digital screen";
  "Doing an energetic 'thumbs up' and winking at the camera";
  "Holding a smartphone and showing the screen with a bright smile" ].

Section Controller.

Context {host : Host}.

(** ** Effects

    Everything a handler does is a state setter, a log line, or a call
    into the outside world; a handler produces the list of its effects in
    program order. *)

Inductive Event : Type :=
| SetHasApiKey (b : bool)
| SetSelectedImage (v : option string)
| SetPrompt (s : string)
| SetAspectRatio (s : string)
| SetIsGenerating (b : bool)
| SetLoadingStep (s : string)
| SetGeneratedVideoUrl (u : string)
| SetError (e : option string)
| ConsoleError (label : option string) (e : Error)
| NewGoogleGenAI (apiKey : string)
| GenerateVideos (req : Request)
| SetTimeout (ms : Z)
| GetVideosOperation (operation : Operation)
| Fetch (url : string)
| ResponseBlob (r : Response).

(** The state after one effect: setters overwrite their field, the rest
    leaves the state alone. *)
Definition apply (st : State) (ev : Event) : State :=
  match ev with
  | SetHasApiKey b =>
      {| hasApiKey := b; selectedImage := selectedImage st;
         prompt := prompt st; aspectRatio := aspectRatio st;
         isGenerating := isGenerating st; loadingStep := loadingStep st;
         generatedVideoUrl := generatedVideoUrl st; error := error st |}
  | SetSelectedImage v =>
      {| hasApiKey := hasApiKey st; selectedImage := v;
         prompt := prompt st; aspectRatio := aspectRatio st;
         isGenerating := isGenerating st; loadingStep := loadingStep st;
         generatedVideoUrl := generatedVideoUrl st; error := error st |}
  | SetPrompt s =>
      {| hasApiKey := hasApiKey st; selectedImage := selectedImage st;
         prompt := s; aspectRatio := aspectRatio st;
         isGenerating := isGenerating st; loadingStep := loadingStep st;
         generatedVideoUrl := generatedVideoUrl st; error := error st |}
  | SetAspectRatio s =>
      {| hasApiKey := hasApiKey st; selectedImage := selectedImage st;
         prompt := prompt st; aspectRatio := s;
         isGenerating := isGenerating st; loadingStep := loadingStep st;
         generatedVideoUrl := generatedVideoUrl st; error := error st |}
  | SetIsGenerating b =>
      {| hasApiKey := hasApiKey st; selectedImage := selectedImage st;
         prompt := prompt st; aspectRatio := aspectRatio st;
         isGenerating := b; loadingStep := loadingStep st;
         generatedVideoUrl := generatedVideoUrl st; error := error st |}
  | SetLoadingStep s =>
      {| hasApiKey := hasApiKey st; selectedImage := selectedImage st;
         prompt := prompt st; aspectRatio := aspectRatio st;
         isGenerating := isGenerating st; loadingStep := s;
         generatedVideoUrl := generatedVideoUrl st; error := error st |}
  | SetGeneratedVideoUrl u =>
      {| hasApiKey := hasApiKey st; selectedImage := selectedImage st;
         prompt := prompt st; aspectRatio := aspectRatio st;
         isGenerating := isGenerating st; loadingStep := loadingStep st;
         generatedVideoUrl := Some u; error := error st |}
  | SetError e =>
      {| hasApiKey := hasApiKey st; selectedImage := selectedImage st;
         prompt := prompt st; aspectRatio := aspectRatio st;
         isGenerating := isGenerating st; loadingStep := loadingStep st;
         generatedVideoUrl := generatedVideoUrl st; error := e |}
  | _ => st
  end.

Definition apply_all (st : State) (evs : list Event) : State :=
  fold_left apply evs st.

(** Calls that leave the page. *)
Definition is_external_call (ev : Event) : bool :=
  match ev with
  | GenerateVideos _ | GetVideosOperation _ | Fetch _ | ResponseBlob _ => true
  | _ => false
  end.

(** ** Credential gate (lines 48-61) *)

(** How a handler ends: it returns, or an exception escapes it. *)
Inductive Completion : Type :=
| Returned
| Uncaught (e : Error).

(** [checkApiKey], given how [window.aistudio.hasSelectedApiKey()]
    settles. *)
Definition checkApiKey (selected : Settled bool) : list Event * Completion :=
  match selected with
  | Resolved b => ([SetHasApiKey b], Returned)
  | Rejected e => ([ConsoleError (Some "API key check failed") e], Returned)
  end.

(** [handleSelectKey], given how [window.aistudio.openSelectKey()]
    settles; there is no [try] around it. *)
Definition handleSelectKey (opened : Settled unit) : list Event * Completion :=
  match opened with
  | Resolved _ => ([SetHasApiKey true], Returned)
  | Rejected e => ([], Uncaught e)
  end.

(** ** Input capture (lines 63-72) *)

(** [reader.onloadend] of [handleImageUpload]: [result] is what
    [reader.result] holds ([null] when the read failed). *)
Definition handleImageUpload (result : option string) : list Event :=
  [SetSelectedImage result].

(** ** The generation job (lines 74-143)

    [generateAnimation] is an [async] function: it runs until its next
    [await], gives control back to the page, and is resumed when the awaited
    promise settles.  A suspended run is described by the [await] it stopped
    at together with the local variables that are still live there. *)

Inductive Await : Type :=
| AwaitGenerateVideos (req : Request)                             (* line 91 *)
| AwaitTimeout (messageIndex : nat) (operation : Operation)       (* line 117 *)
| AwaitGetVideosOperation (messageIndex : nat) (operation : Operation) (* line 118 *)
| AwaitFetch (url : string)                                       (* line 124 *)
| AwaitBlob (r : Response).                                       (* line 125 *)

(** What an awaited promise settled with. *)
Inductive Settlement : Type :=
| OperationSettled (outcome : Settled Operation)
| TimerFired
| FetchSettled (outcome : Settled Response)
| BlobSettled (outcome : Settled Blob).

(** One stretch of synchronous code: its effects, and the [await] it stops
    at ([None] when the function has returned). *)
Definition Stretch : Type := list Event * option Await.

(** Lines 86-103. *)
Definition build_request (selectedImage prompt aspectRatio : string) : Request :=
  let base64Data := at_index (split "," selectedImage) 1 in
  let mimeType :=
    match split ";" selectedImage with
    | head :: _ => at_index (split ":" head) 1
    | [] => None
    end in
  {| model := "veo-3.1-fast-generate-preview";
     request_prompt :=
       "Animate this character: " ++
       or_default (Some prompt) "Natural movement in high quality commercial lighting";
     image := {| imageBytes := base64Data; mimeType := mimeType |};
     config := {| numberOfVideos := 1;
                  resolution := "720p";
                  config_aspectRatio := aspectRatio |} |}.

(** Lines 105-111. *)
Definition loadingMessages : list string :=
  [ "Analyzing avatar features...";
    "Simulating physics and movement...";
    "Rendering commercial lighting...";
    "Finalizing high-quality motion...";
    "Almost there, polishing textures..." ].

(** Lines 139-142. *)
Definition finally_block : list Event :=
  [SetIsGenerating false; SetLoadingStep EmptyString].

(** [err.message?.includes("Requested entity was not found")], line 132. *)
Definition entity_not_found (err : Error) : bool :=
  match message err with
  | Some m => includes "Requested entity was not found" m
  | None => false
  end.

(** Lines 130-138. *)
Definition catch_block (err : Error) : list Event :=
  ConsoleError None err ::
  if entity_not_found err then
    [SetHasApiKey false;
     SetError (Some "API Key session expired or invalid. Please select a paid project key.")]
  else
    [SetError (Some (or_default (message err)
                       "An error occurred during generation. Please try again."))].

(** An exception inside the [try]: [catch], then [finally], then return. *)
Definition throw (err : Error) : Stretch :=
  (catch_block err ++ finally_block, None).

(** Lines 121-129, up to the [await] of line 124. *)
Definition after_loop (operation : Operation) : Stretch :=
  match video_uri operation with
  | Some (String c rest) =>
      let downloadLink := String c rest in
      let url := (downloadLink ++ "&key=" ++ API_KEY)%string in
      ([SetLoadingStep "Downloading final commercial asset..."; Fetch url],
       Some (AwaitFetch url))
  | _ => throw (new_Error "No video was generated in the response.")
  end.

(** The loop test of line 114 and, when it passes, lines 115-117.
    [messageIndex] is a JavaScript number that only counts turns of ten
    seconds each; it is exact far beyond any run, so it is a [nat] here. *)
Definition while_loop (messageIndex : nat) (operation : Operation) : Stretch :=
  if negb (done operation) then
    ([SetLoadingStep
        (nth (messageIndex mod length loadingMessages) loadingMessages EmptyString);
      SetTimeout 10000],
     Some (AwaitTimeout (S messageIndex) operation))
  else after_loop operation.

(** The click handler up to the first [await] (lines 75-91).  The values of
    [selectedImage], [prompt] and [aspectRatio] are those of the render the
    handler belongs to. *)
Definition start (st : State) : Stretch :=
  match selectedImage st with
  | Some (String c rest) =>
      let req := build_request (String c rest) (prompt st) (aspectRatio st) in
      ([SetIsGenerating true;
        SetError None;
        SetLoadingStep "Initializing AI engine...";
        NewGoogleGenAI API_KEY;
        SetLoadingStep "Uploading reference frame to Veo...";
        GenerateVideos req],
       Some (AwaitGenerateVideos req))
  | _ => ([], None)
  end.

(** Resuming a suspended run with the settlement of the promise it awaits.
    A settlement of another kind is not for this [await]. *)
Definition resume (task : Await) (settlement : Settlement) : option Stretch :=
  match task, settlement with
  | AwaitGenerateVideos _, OperationSettled (Resolved operation) =>
      Some (while_loop 0 operation)
  | AwaitTimeout messageIndex operation, TimerFired =>
      Some ([GetVideosOperation operation],
            Some (AwaitGetVideosOperation messageIndex operation))
  | AwaitGetVideosOperation messageIndex _, OperationSettled (Resolved operation) =>
      Some (while_loop messageIndex operation)
  | AwaitFetch _, FetchSettled (Resolved r) =>
      Some ([ResponseBlob r], Some (AwaitBlob r))
  | AwaitBlob _, BlobSettled (Resolved blob) =>
      Some (SetGeneratedVideoUrl (createObjectURL blob) :: finally_block, None)
  | AwaitGenerateVideos _, OperationSettled (Rejected err)
  | AwaitGetVideosOperation _ _, OperationSettled (Rejected err)
  | AwaitFetch _, FetchSettled (Rejected err)
  | AwaitBlob _, BlobSettled (Rejected err) =>
      Some (throw err)
  | _, _ => None
  end.

(** ** One run against a given outside world *)

(** The answers of the outside world during one run.  The status check is
    indexed by the number of checks made before it: the service is free to
    answer the same handle differently each time. *)
Record World := {
  generateVideos : Request -> Settled Operation;
  getVideosOperation : nat -> Operation -> Settled Operation;
  fetch : string -> Settled Response;
  response_blob : Response -> Settled Blob
}.

Definition answer (world : World) (task : Await) : Settlement :=
  match task with
  | AwaitGenerateVideos req => OperationSettled (generateVideos world req)
  | AwaitTimeout _ _ => TimerFired
  | AwaitGetVideosOperation messageIndex operation =>
      OperationSettled (getVideosOperation world (pred messageIndex) operation)
  | AwaitFetch url => FetchSettled (fetch world url)
  | AwaitBlob r => BlobSettled (response_blob world r)
  end.

(** [advance n world task]: let the world settle up to [n] awaited promises
    in a row; the effects so far, and where the run stands. *)
Fixpoint advance (n : nat) (world : World) (task : Await) : Stretch :=
  match n with
  | 0 => ([], Some task)
  | S n' =>
      match resume task (answer world task) with
      | Some (evs, Some task') =>
          let (evs', rest) := advance n' world task' in (evs ++ evs', rest)
      | Some (evs, None) => (evs, None)
      | None => ([], Some task)
      end
  end.

(** The same, from the end of a stretch. *)
Definition proceed (n : nat) (world : World) (stretch : Stretch) : Stretch :=
  match stretch with
  | (evs, Some task) =>
      let (evs', rest) := advance n world task in (evs ++ evs', rest)
  | (evs, None) => (evs, None)
  end.

(** A whole call of [generateAnimation] from state [st], cut off after [n]
    settlements. *)
Definition generateAnimation (n : nat) (world : World) (st : State) : Stretch :=
  proceed n world (start st).

(** The status reports seen by the poll loop: report [0] is the submission's
    answer, report [k+1] the answer to the status check on report [k]. *)
Fixpoint report (world : World) (first : Settled Operation) (k : nat)
  : Settled Operation :=
  match k with
  | 0 => first
  | S k' =>
      match report world first k' with
      | Resolved operation => getVideosOperation world k' operation
      | Rejected err => Rejected err
      end
  end.

(** The handle that report [k] carries (the first one again if report [k]
    is an exception). *)
Definition handle_at (world : World) (first : Operation) (k : nat) : Operation :=
  match report world (Resolved first) k with
  | Resolved operation => operation
  | Rejected _ => first
  end.

(** The run is inside the [while] of lines 114-119. *)
Definition polling (rest : option Await) : bool :=
  match rest with
  | Some (AwaitTimeout _ _) | Some (AwaitGetVideosOperation _ _) => true
  | _ => false
  end.

(** A report that makes the loop stop: done, or an exception. *)
Definition final_report (r : Settled Operation) : bool :=
  match r with
  | Resolved operation => done operation
  | Rejected _ => true
  end.

(** The effects of [n] turns of the loop, when turn [k] checks the handle
    [ops k]. *)
Definition loop_trace (ops : nat -> Operation) (n : nat) : list Event :=
  flat_map
    (fun k =>
       [SetLoadingStep (nth (k mod 5) loadingMessages EmptyString);
        SetTimeout 10000;
        GetVideosOperation (ops k)])
    (seq 0 n).

(** ** Vocabulary for the statements *)

Definition awaits_operation (task : Await) : bool :=
  match task with
  | AwaitGenerateVideos _ | AwaitGetVideosOperation _ _ => true
  | _ => false
  end.

(** The exception a settlement carries, if it is a rejection. *)
Definition rejection_of (settlement : Settlement) : option Error :=
  match settlement with
  | OperationSettled (Rejected err)
  | FetchSettled (Rejected err)
  | BlobSettled (Rejected err) => Some err
  | _ => None
  end.

(** Effects that leave the credential flag, the busy flag, the result asset
    and the error message alone. *)
Definition quiet (ev : Event) : bool :=
  match ev with
  | SetHasApiKey _ | SetIsGenerating _ | SetGeneratedVideoUrl _ | SetError _ => false
  | _ => true
  end.

(** The four fields a quiet effect cannot touch. *)
Definition guarded_fields (st : State) : bool * bool * option string * option string :=
  (hasApiKey st, isGenerating st, generatedVideoUrl st, error st).

(** A stretch either stops at an [await] after quiet effects only, or ends
    the run: with the asset set and the [finally] block, or with [catch] and
    [finally]. *)
Inductive stretch_shape : Stretch -> Prop :=
| shape_suspended evs task :
    forallb quiet evs = true ->
    stretch_shape (evs, Some task)
| shape_succeeded blob :
    stretch_shape (SetGeneratedVideoUrl (createObjectURL blob) :: finally_block, None)
| shape_failed err :
    stretch_shape (throw err).

(** ** What is on screen (lines 145-165, 271-297, 316-355) *)

Record MainView := {
  generate_disabled : bool;          (* line 272 *)
  error_banner : option string;      (* lines 293-297 *)
  progress_overlay : option string;  (* lines 316-331 *)
  video_player : option string       (* lines 333-355 *)
}.

Inductive Screen : Type :=
| GateScreen
| MainScreen (view : MainView).

Definition render (st : State) : Screen :=
  if negb (hasApiKey st) then GateScreen
  else MainScreen
    {| generate_disabled := negb (truthy (selectedImage st)) || isGenerating st;
       error_banner := if truthy (error st) then error st else None;
       progress_overlay := if isGenerating st then Some (loadingStep st) else None;
       video_player :=
         if truthy (generatedVideoUrl st) && negb (isGenerating st)
         then generatedVideoUrl st else None |}.

(** The Generate button can be clicked: it is on screen and not disabled. *)
Definition generate_enabled (st : State) : bool :=
  match render st with
  | GateScreen => false
  | MainScreen view => negb (generate_disabled view)
  end.

(** ** The session: the page state and the runs in flight

    Between two stretches of synchronous code anything may happen: the user
    acts on what is on screen, or some awaited promise settles.  React has
    rendered the state left by the previous stretch before the next user
    event is dispatched, so a click is judged against [render (ui s)]. *)

Record Session := {
  ui : State;
  tasks : list Await
}.

Definition initial_session : Session :=
  {| ui := initial_state; tasks := [] |}.

Inductive Action : Type :=
| ApiKeyChecked (selected : Settled bool)     (* the mount effect, lines 44-55 *)
| SelectKeyClicked (opened : Settled unit)    (* line 154 *)
| ImageLoaded (result : option string)        (* line 67 *)
| PromptTyped (text : string)                 (* line 229 *)
| PresetClicked (idx : nat)                   (* line 241 *)
| AspectRatioClicked (idx : nat)              (* line 256 *)
| GenerateClicked                             (* line 273 *)
| PromiseSettled (i : nat) (settlement : Settlement)
| PageReloaded.                               (* line 175, or the browser *)

Definition opt_to_list {A : Type} (v : option A) : list A :=
  match v with
  | Some a => [a]
  | None => []
  end.

Definition with_effects (s : Session) (evs : list Event) : Session :=
  {| ui := apply_all (ui s) evs; tasks := tasks s |}.

Definition session_step (s : Session) (a : Action) : Session :=
  match a with
  | ApiKeyChecked selected => with_effects s (fst (checkApiKey selected))
  | SelectKeyClicked opened =>
      if hasApiKey (ui s) then s
      else with_effects s (fst (handleSelectKey opened))
  | ImageLoaded result => with_effects s (handleImageUpload result)
  | PromptTyped text =>
      if hasApiKey (ui s) then with_effects s [SetPrompt text] else s
  | PresetClicked idx =>
      match hasApiKey (ui s), at_index PRESET_POSITIONS idx with
      | true, Some preset => with_effects s [SetPrompt preset]
      | _, _ => s
      end
  | AspectRatioClicked idx =>
      match hasApiKey (ui s), at_index ASPECT_RATIOS idx with
      | true, Some (_, value) => with_effects s [SetAspectRatio value]
      | _, _ => s
      end
  | GenerateClicked =>
      if generate_enabled (ui s) then
        let (evs, rest) := start (ui s) in
        {| ui := apply_all (ui s) evs; tasks := tasks s ++ opt_to_list rest |}
      else s
  | PromiseSettled i settlement =>
      match at_index (tasks s) i with
      | Some task =>
          match resume task settlement with
          | Some (evs, rest) =>
              {| ui := apply_all (ui s) evs;
                 tasks := firstn i (tasks s) ++ opt_to_list rest
                          ++ skipn (S i) (tasks s) |}
          | None => s
          end
      | None => s
      end
  | PageReloaded => initial_session
  end.

Definition session_run (s : Session) (actions : list Action) : Session :=
  fold_left session_step actions s.

(** ** Invariants *)

(** At most one run is in flight; the busy flag is up exactly while there
    is one, and then no error is shown. *)
Definition session_invariant (s : Session) : Prop :=
  (tasks s = [] /\ isGenerating (ui s) = false) \/
  (exists task,
      tasks s = [task] /\ isGenerating (ui s) = true /\ error (ui s) = None).

(** How the effects of a run end: not yet, with the asset, or with an
    error. *)
Inductive ending : list Event -> option Await -> Prop :=
| still_running task :
    ending [] (Some task)
| succeeded blob :
    ending (SetGeneratedVideoUrl (createObjectURL blob) :: finally_block) None
| failed err :
    ending (catch_block err ++ finally_block) None.

(** Quiet effects, then an ending. *)
Definition run_shape (stretch : Stretch) : Prop :=
  exists body tail,
    fst stretch = body ++ tail /\
    forallb quiet body = true /\
    ending tail (snd stretch).

End Controller.

Arguments Event {host}.
Arguments Await {host}.
Arguments Settlement {host}.
Arguments Stretch {host}.
Arguments World {host}.
Arguments Session {host}.
Arguments Action {host}.

(** ** A concrete host and concrete worlds, for the scenarios below *)

Definition demo_host : Host :=
  {| Response := string;
     Blob := string;
     createObjectURL := fun blob => ("blob:" ++ blob)%string;
     API_KEY := "k3y" |}.

Definition demo_image : string := "data:image/png;base64,iVBORw0KGgo=".

Definition pending (id : string) : Operation :=
  {| name := id; done := false; response := None |}.

Definition finished (id : string) (videos : option (list GeneratedVideo)) : Operation :=
  {| name := id; done := true;
     response := Some {| generatedVideos := videos |} |}.

Definition one_video (link : string) : option (list GeneratedVideo) :=
  Some [ {| video := Some {| uri := Some link |} |} ].

Definition demo_fetch (url : string) : Settled (@Response demo_host) :=
  Resolved ("response of " ++ url)%string.

Definition demo_blob (r : @Response demo_host) : Settled (@Blob demo_host) :=
  Resolved ("bytes of " ++ r)%string.

(** A service that needs [n] status checks after the submission before it
    reports the operation done, with one video at [link]. *)
Definition world_done_after (n : nat) (link : string) : @World demo_host :=
  @Build_World demo_host
    (fun _ => Resolved (if Nat.eqb n 0 then finished "op" (one_video link)
                        else pending "op"))
    (fun k _ => Resolved (if Nat.ltb (S k) n then pending "op"
                          else finished "op" (one_video link)))
    demo_fetch
    demo_blob.

(** A service that never reports the operation done. *)
Definition world_stalled : @World demo_host :=
  @Build_World demo_host
    (fun _ => Resolved (pending "op"))
    (fun _ _ => Resolved (pending "op"))
    demo_fetch
    demo_blob.

(** The handles that such a service hands out, report by report. *)
Definition demo_ops (n : nat) (link : string) (k : nat) : Operation :=
  if Nat.ltb k n then pending "op" else finished "op" (one_video link).

Definition demo_link : string := "https://video.example/v1?alt=media".

(** An error as the service raises it for a key it does not know. *)
Definition expired_key_error : Error :=
  new_Error "404 NOT_FOUND: Requested entity was not found.".

(** A service that turns every submission down. *)
Definition world_rejecting : @World demo_host :=
  @Build_World demo_host
    (fun _ => Rejected expired_key_error)
    (fun _ _ => Rejected expired_key_error)
    demo_fetch
    demo_blob.

(** A user who generates a video, then tries again and is turned down. *)
Definition success_then_failure : list (@Action demo_host) :=
  [ SelectKeyClicked (Resolved tt);
    ImageLoaded (Some demo_image);
    GenerateClicked;
    PromiseSettled 0
      (OperationSettled (Resolved (finished "op" (one_video demo_link))));
    PromiseSettled 0 (FetchSettled (demo_fetch "video"));
    PromiseSettled 0 (BlobSettled (demo_blob "video"));
    GenerateClicked ].


(** A prompt made of blanks only. *)
Definition blank_prompt : string := "   ".

(** A session with a key selected and an image loaded. *)
Definition ready_state : State :=
  apply_all (host := demo_host) initial_state
    [SetHasApiKey true; SetSelectedImage (Some demo_image)].

(** The same, with the asset of an earlier run still in place. *)
Definition state_with_asset : State :=
  apply (host := demo_host) ready_state (SetGeneratedVideoUrl "blob:earlier").

(** The same, with the prompt set to three blanks. *)
Definition blank_prompt_state : State :=
  apply (host := demo_host) ready_state (SetPrompt blank_prompt).

(** ** The rest of the page *)

(** [s] holds the character [c]. *)
Fixpoint mentions (c : ascii) (s : string) : bool :=
  match s with
  | EmptyString => false
  | String c' rest => Ascii.eqb c' c || mentions c rest
  end.

(** The text on a preset button (line 244). *)
Definition preset_label (preset : string) : string :=
  (match split "," preset with
   | head :: _ => head
   | [] => EmptyString
   end ++ "...")%string.



Section Traces.

Context {host : Host}.

(** Effects that overwrite what the user entered. *)
Definition touches_input (ev : Event) : bool :=
  match ev with
  | SetSelectedImage _ | SetPrompt _ | SetAspectRatio _ => true
  | _ => false
  end.

(** The run waits for the timer of line 117. *)
Definition armed (task : Await) : bool :=
  match task with
  | AwaitTimeout _ _ => true
  | _ => false
  end.

(** Reading a trace from left to right: is the last effect the 10000 ms
    timer? *)
Definition armed_by (before : bool) (ev : Event) : bool :=
  match ev with
  | SetTimeout ms => Z.eqb ms 10000
  | _ => false
  end.

Definition armed_after (before : bool) (evs : list Event) : bool :=
  fold_left armed_by evs before.

(** Every status check of the trace comes right after the 10000 ms timer
    ([before]: the trace continues one that ended with the timer). *)
Fixpoint paced_from (before : bool) (evs : list Event) : bool :=
  match evs with
  | [] => true
  | ev :: rest =>
      match ev with
      | GetVideosOperation _ => before
      | _ => true
      end && paced_from (armed_by before ev) rest
  end.

(** [url] is the download address of the operation the service reported
    finished: report [k] is the first final one, it is a done operation with
    a non-empty result URI, and [url] is that URI followed by "&key=" and
    the key. *)
Definition download_of_report (world : World) (first : Settled Operation)
  (url : string) : Prop :=
  exists k operation link,
    report world first k = Resolved operation /\
    (forall j, j < k -> final_report (report world first j) = false) /\
    done operation = true /\
    video_uri operation = Some link /\
    link <> EmptyString /\
    url = (link ++ "&key=" ++ API_KEY)%string.

(** Where a run stands agrees with the reports so far: in turn [k] of the
    loop it holds the handle of report [k], and no report up to [k] was
    final; past the loop it downloads from the finished operation. *)
Definition on_schedule (world : World) (first : Settled Operation)
  (task : Await) : Prop :=
  match task with
  | AwaitGenerateVideos _ => False
  | AwaitTimeout i operation
  | AwaitGetVideosOperation i operation =>
      exists k,
        i = S k /\
        report world first k = Resolved operation /\
        forall j, j <= k -> final_report (report world first j) = false
  | AwaitFetch url => download_of_report world first url
  | AwaitBlob _ => True
  end.

End Traces.

(** A request as the page means to build them: the fixed model, one video,
    the fixed resolution, one of the two aspect ratios on offer, and a text
    that says something after the fixed opening. *)
Definition well_formed (req : Request) : Prop :=
  model req = "veo-3.1-fast-generate-preview" /\
  numberOfVideos (config req) = 1 /\
  resolution (config req) = "720p" /\
  In (config_aspectRatio (config req)) (map snd ASPECT_RATIOS) /\
  exists text,
    text <> EmptyString /\
    request_prompt req = ("Animate this character: " ++ text)%string.

Section Budgets.

Context {host : Host}.

Definition is_submission (ev : Event) : bool :=
  match ev with
  | GenerateVideos _ => true
  | _ => false
  end.

Definition is_download (ev : Event) : bool :=
  match ev with
  | Fetch _ => true
  | _ => false
  end.

Definition is_blob_read (ev : Event) : bool :=
  match ev with
  | ResponseBlob _ => true
  | _ => false
  end.

Definition count (f : Event -> bool) (evs : list Event) : nat :=
  length (filter f evs).

(** The downloads a run can still start from where it stands: one until the
    loop is left, none afterwards. *)
Definition downloads_left (rest : option Await) : nat :=
  match rest with
  | Some (AwaitGenerateVideos _)
  | Some (AwaitTimeout _ _)
  | Some (AwaitGetVideosOperation _ _) => 1
  | _ => 0
  end.

(** The blobs it can still read: one until the fetch has answered. *)
Definition reads_left (rest : option Await) : nat :=
  match rest with
  | Some (AwaitBlob _) | None => 0
  | Some _ => 1
  end.

End Budgets.

(** A file name, for an image string that is no data URL. *)
Definition plain_image : string := "avatar.png".

(** * Properties *)

(** ** Effects and the state *)

Section Lemmas.

Context {host : Host}.

Lemma apply_all_app (st : State) (evs evs' : list Event) :
  apply_all st (evs ++ evs') = apply_all (apply_all st evs) evs'.
Proof. unfold apply_all. apply fold_left_app. Qed.

Lemma quiet_apply (st : State) (ev : Event) :
  quiet ev = true -> guarded_fields (apply st ev) = guarded_fields st.
Proof. destruct ev; simpl; intros H; try discriminate; reflexivity. Qed.

Lemma quiet_apply_all (evs : list Event) :
  forall st, forallb quiet evs = true ->
             guarded_fields (apply_all st evs) = guarded_fields st.
Proof.
  induction evs as [|ev evs IH]; intros st H.
  - reflexivity.
  - apply andb_true_iff in H as [Hev Hevs].
    change (apply_all st (ev :: evs)) with (apply_all (apply st ev) evs).
    rewrite IH by assumption. now apply quiet_apply.
Qed.

Lemma quiet_app (evs evs' : list Event) :
  forallb quiet (evs ++ evs') = forallb quiet evs && forallb quiet evs'.
Proof. apply forallb_app. Qed.

Lemma throw_state (st : State) (err : Error) :
  let st' := apply_all st (fst (throw err)) in
  generatedVideoUrl st' = generatedVideoUrl st /\
  isGenerating st' = false /\
  (exists msg, error st' = Some msg) /\
  (entity_not_found err = true ->
   hasApiKey st' = false /\
   error st' =
     Some "API Key session expired or invalid. Please select a paid project key.") /\
  (entity_not_found err = false ->
   hasApiKey st' = hasApiKey st /\
   error st' =
     Some (or_default (message err)
             "An error occurred during generation. Please try again.")).
Proof.
  unfold throw, catch_block. destruct (entity_not_found err); simpl;
    repeat split; intros; try discriminate; try reflexivity; eexists; reflexivity.
Qed.

(** ** The shape of a stretch *)

Lemma after_loop_shape (operation : Operation) :
  stretch_shape (after_loop operation).
Proof.
  unfold after_loop. destruct (video_uri operation) as [[|c rest]|];
    try apply shape_failed.
  apply shape_suspended. reflexivity.
Qed.

Lemma while_loop_shape (messageIndex : nat) (operation : Operation) :
  stretch_shape (while_loop messageIndex operation).
Proof.
  unfold while_loop. destruct (done operation); simpl.
  - apply after_loop_shape.
  - apply shape_suspended. reflexivity.
Qed.

Lemma resume_shape (task : Await) (settlement : Settlement) (stretch : Stretch) :
  resume task settlement = Some stretch -> stretch_shape stretch.
Proof.
  destruct task, settlement as [[op|err]| |[r'|err]|[b|err]]; simpl;
    intros H; inversion H; subst; clear H;
    try apply while_loop_shape; try apply shape_failed;
    try apply shape_succeeded; apply shape_suspended; reflexivity.
Qed.

Lemma resume_answer (world : World) (task : Await) :
  exists stretch, resume task (answer world task) = Some stretch.
Proof.
  destruct task; simpl.
  - destruct (generateVideos world req); eexists; reflexivity.
  - eexists; reflexivity.
  - destruct (getVideosOperation world (pred messageIndex) operation);
      eexists; reflexivity.
  - destruct (fetch world url); eexists; reflexivity.
  - destruct (response_blob world r); eexists; reflexivity.
Qed.

(** ** Letting a run proceed *)

Lemma proceed_finished (n : nat) (world : World) (evs : list Event) :
  proceed n world (evs, None) = (evs, None).
Proof. reflexivity. Qed.

Lemma proceed_zero (world : World) (stretch : Stretch) :
  proceed 0 world stretch = stretch.
Proof.
  destruct stretch as [evs [task|]]; simpl; [rewrite app_nil_r|]; reflexivity.
Qed.

Lemma proceed_prefix (n : nat) (world : World) (evs evs' : list Event)
      (rest : option Await) :
  proceed n world (evs ++ evs', rest) =
  let (more, rest') := proceed n world (evs', rest) in (evs ++ more, rest').
Proof.
  destruct rest as [task|]; simpl; [|reflexivity].
  destruct (advance n world task). now rewrite app_assoc.
Qed.

Lemma advance_step (n : nat) (world : World) (task : Await) :
  advance (S n) world task =
  match resume task (answer world task) with
  | Some stretch => proceed n world stretch
  | None => ([], Some task)
  end.
Proof.
  simpl. destruct (resume task (answer world task)) as [[evs [task'|]]|];
    reflexivity.
Qed.

Lemma advance_add (n m : nat) (world : World) :
  forall task,
    advance (n + m) world task = proceed m world (advance n world task).
Proof.
  induction n as [|n IH]; intros task.
  - simpl. destruct (advance m world task). reflexivity.
  - change (S n + m) with (S (n + m)). rewrite !advance_step.
    destruct (resume_answer world task) as [[evs [task'|]] ->]; simpl.
    + rewrite IH. destruct (advance n world task') as [evs' rest'].
      now rewrite (proceed_prefix m world evs evs' rest').
    + reflexivity.
Qed.

Lemma proceed_add (n m : nat) (world : World) (stretch : Stretch) :
  proceed (n + m) world stretch = proceed m world (proceed n world stretch).
Proof.
  destruct stretch as [evs [task|]]; [|reflexivity].
  simpl proceed at 1 3. rewrite advance_add.
  destruct (advance n world task) as [evs' rest'].
  now rewrite (proceed_prefix m world evs evs' rest').
Qed.

(** Once a run has returned, more settlements change nothing. *)
Lemma proceed_returned (n m : nat) (world : World) (stretch : Stretch) :
  snd (proceed n world stretch) = None ->
  proceed (n + m) world stretch = proceed n world stretch.
Proof.
  intros H. rewrite proceed_add.
  destruct (proceed n world stretch) as [evs rest]. simpl in H. now subst.
Qed.

(** ** The poll loop, turn by turn *)

Lemma loop_trace_S (ops : nat -> Operation) (n : nat) :
  loop_trace ops (S n) =
  loop_trace ops n ++
  [SetLoadingStep (nth (n mod 5) loadingMessages EmptyString);
   SetTimeout 10000;
   GetVideosOperation (ops n)].
Proof.
  unfold loop_trace. rewrite seq_S, flat_map_app. reflexivity.
Qed.

(** One turn: the phrase, the delay, the status check, and the loop test on
    the answer. *)
Lemma loop_turn (world : World) (k : nat) (operation next : Operation) :
  done operation = false ->
  getVideosOperation world k operation = Resolved next ->
  proceed 2 world (while_loop k operation) =
  let (evs, rest) := while_loop (S k) next in
  ([SetLoadingStep (nth (k mod 5) loadingMessages EmptyString);
    SetTimeout 10000;
    GetVideosOperation operation] ++ evs, rest).
Proof.
  intros Hdone Hnext. unfold while_loop at 1. rewrite Hdone. simpl negb. cbv iota.
  unfold proceed. rewrite advance_step. cbn [resume answer].
  unfold proceed. rewrite advance_step. cbn [resume answer pred].
  rewrite Hnext. rewrite proceed_zero.
  destruct (while_loop (S k) next) as [evs rest]. reflexivity.
Qed.

(** After [n] turns on handles that were all reported not done, the run is
    at the loop test of turn [n]. *)
Lemma loop_turns (world : World) (ops : nat -> Operation) (n : nat) :
  (forall k, k < n ->
             done (ops k) = false /\
             getVideosOperation world k (ops k) = Resolved (ops (S k))) ->
  proceed (2 * n) world (while_loop 0 (ops 0)) =
  let (evs, rest) := while_loop n (ops n) in (loop_trace ops n ++ evs, rest).
Proof.
  induction n as [|n IH]; intros Hops.
  - rewrite proceed_zero. destruct (while_loop 0 (ops 0)). reflexivity.
  - replace (2 * S n) with (2 * n + 2) by lia.
    rewrite proceed_add, IH by (intros k Hk; apply Hops; lia).
    destruct (Hops n (Nat.lt_succ_diag_r n)) as [Hdone Hnext].
    pose proof (loop_turn world n (ops n) (ops (S n)) Hdone Hnext) as Hturn.
    destruct (while_loop n (ops n)) as [evs rest].
    rewrite proceed_prefix, Hturn.
    destruct (while_loop (S n) (ops (S n))) as [evs' rest'].
    now rewrite loop_trace_S, <- app_assoc.
Qed.

Lemma loop_trace_quiet (ops : nat -> Operation) (n : nat) :
  forallb quiet (loop_trace ops n) = true.
Proof.
  induction n as [|n IH]; [reflexivity|].
  rewrite loop_trace_S, quiet_app, IH. reflexivity.
Qed.

Lemma quiet_fields (st : State) (evs : list Event) :
  forallb quiet evs = true ->
  let st' := apply_all st evs in
  hasApiKey st' = hasApiKey st /\ isGenerating st' = isGenerating st /\
  generatedVideoUrl st' = generatedVideoUrl st /\ error st' = error st.
Proof.
  intros H. pose proof (quiet_apply_all evs st H) as E.
  unfold guarded_fields in E. inversion E. auto.
Qed.

(** What the first stretch of a run that starts leaves behind. *)
Lemma start_state (st : State) :
  truthy (selectedImage st) = true ->
  let st' := apply_all st (fst (start st)) in
  isGenerating st' = true /\ error st' = None /\
  hasApiKey st' = hasApiKey st /\ generatedVideoUrl st' = generatedVideoUrl st.
Proof.
  unfold start. destruct (selectedImage st) as [[|c rest]|]; simpl;
    try discriminate. auto.
Qed.

End Lemmas.

(** ** When the poll loop stops *)

Lemma first_true (P : nat -> bool) (k : nat) :
  (exists k0, k0 < k /\ P k0 = true /\ forall j, j < k0 -> P j = false) \/
  (forall j, j < k -> P j = false).
Proof.
  induction k as [|k [(k0 & Hlt & Hk0 & Hmin)|Hnone]].
  - right. intros j Hj. lia.
  - left. exists k0. repeat split; auto.
  - destruct (P k) eqn:Hk.
    + left. exists k. repeat split; auto.
    + right. intros j Hj.
      destruct (Nat.eq_dec j k) as [->|Hneq]; [assumption|apply Hnone; lia].
Qed.

Section PollLoop.

Context {host : Host} (world : World) (first : Operation).

Lemma not_final_handle (k : nat) :
  final_report (report world (Resolved first) k) = false ->
  report world (Resolved first) k = Resolved (handle_at world first k) /\ done (handle_at world first k) = false.
Proof.
  unfold handle_at.
  destruct (report world (Resolved first) k); simpl; intros H;
    [auto|discriminate].
Qed.

Lemma resolved_handle (k : nat) (operation : Operation) :
  report world (Resolved first) k = Resolved operation -> handle_at world first k = operation.
Proof. unfold handle_at. now intros ->. Qed.

Lemma report_S (k : nat) :
  final_report (report world (Resolved first) k) = false ->
  report world (Resolved first) (S k) = getVideosOperation world k (handle_at world first k).
Proof.
  intros H. destruct (not_final_handle k H) as [E _].
  cbn [report]. fold (report world (Resolved first) k).
  now rewrite E.
Qed.

(** As long as no report was final, the turns are as [loop_turns] wants
    them. *)
Lemma turns_of_reports (m : nat) :
  (forall k, k <= m -> final_report (report world (Resolved first) k) = false) ->
  forall k, k < m ->
            done (handle_at world first k) = false /\
            getVideosOperation world k (handle_at world first k) = Resolved (handle_at world first (S k)).
Proof.
  intros Hnot k Hk.
  destruct (not_final_handle k (Hnot k ltac:(lia))) as [_ Hdone].
  destruct (not_final_handle (S k) (Hnot (S k) ltac:(lia))) as [E _].
  rewrite report_S in E by (apply Hnot; lia). auto.
Qed.

Lemma still_polling (m : nat) :
  (forall k, k <= m -> final_report (report world (Resolved first) k) = false) ->
  forall n, n <= 2 * m + 1 ->
            polling (snd (proceed n world (while_loop 0 first))) = true.
Proof.
  intros Hnot n Hn.
  assert (Hfirst : handle_at world first 0 = first) by reflexivity.
  assert (Hq : exists q b, n = 2 * q + b /\ b <= 1 /\ q <= m).
  { exists (n / 2), (n mod 2).
    pose proof (Nat.div_mod_eq n 2). pose proof (Nat.mod_upper_bound n 2).
    lia. }
  destruct Hq as (q & b & -> & Hb & Hqm).
  rewrite proceed_add, <- Hfirst.
  rewrite (loop_turns world (handle_at world first) q)
    by (apply turns_of_reports; intros k Hk; apply Hnot; lia).
  destruct (not_final_handle q (Hnot q Hqm)) as [_ Hdone].
  unfold while_loop. rewrite Hdone. cbn [negb].
  rewrite proceed_prefix.
  destruct b as [|[|b]]; [reflexivity|reflexivity|lia].
Qed.

Lemma loop_exits_at (k : nat) :
  final_report (report world (Resolved first) k) = true ->
  (forall j, j < k -> final_report (report world (Resolved first) j) = false) ->
  polling (snd (proceed (2 * k) world (while_loop 0 first))) = false.
Proof.
  intros Hfinal Hnot.
  assert (Hfirst : handle_at world first 0 = first) by reflexivity.
  assert (Hafter : forall i operation,
             done operation = true ->
             polling (snd (while_loop i operation)) = false).
  { intros i operation Hdone. unfold while_loop, after_loop.
    rewrite Hdone. cbn [negb].
    destruct (video_uri operation) as [[|c rest]|]; reflexivity. }
  destruct k as [|q].
  - rewrite proceed_zero. apply Hafter. exact Hfinal.
  - assert (Hbefore : forall k, k <= q -> final_report (report world (Resolved first) k) = false)
      by (intros k Hk; apply Hnot; lia).
    destruct (not_final_handle q (Hbefore q (le_n q))) as [_ Hdone].
    pose proof (report_S q (Hbefore q (le_n q))) as Hnext.
    destruct (report world (Resolved first) (S q)) as [operation|err] eqn:E.
    + (* the last check answers with a finished operation *)
      rewrite <- Hfirst, (loop_turns world (handle_at world first) (S q)).
      * pose proof (Hafter (S q) (handle_at world first (S q))) as H.
        rewrite (resolved_handle (S q) operation E) in *.
        destruct (while_loop (S q) operation). apply H. exact Hfinal.
      * intros k Hk. destruct (Nat.eq_dec k q) as [->|Hneq].
        -- split; [assumption|].
           now rewrite (resolved_handle (S q) operation E), <- Hnext.
        -- apply (turns_of_reports q Hbefore). lia.
    + (* the last check raises *)
      replace (2 * S q) with (2 * q + 2) by lia.
      rewrite proceed_add, <- Hfirst.
      rewrite (loop_turns world (handle_at world first) q (turns_of_reports q Hbefore)).
      unfold while_loop. rewrite Hdone. cbn [negb].
      rewrite proceed_prefix. unfold proceed at 1.
      rewrite advance_step. cbn [resume answer].
      unfold proceed at 1. rewrite advance_step. cbn [resume answer pred].
      rewrite <- Hnext. reflexivity.
Qed.

End PollLoop.

(** C2.  The poll loop has no bound of its own.  With [first] the handle the
    submission answered, the run leaves the loop after some number of
    settlements exactly when some report is final (the operation is reported
    done, or the status check raises).  When every report is "not done", the
    run is still inside the loop after any number of settlements, and a call
    of [generateAnimation] that reached the loop never returns. *)
Theorem poll_loop_unbounded {host : Host} (world : World) (first : Operation) :
  ((exists n, polling (snd (proceed n world (while_loop 0 first))) = false) <->
   (exists k, final_report (report world (Resolved first) k) = true)) /\
  ((forall k, final_report (report world (Resolved first) k) = false) ->
   (forall n, polling (snd (proceed n world (while_loop 0 first))) = true) /\
   (forall st img n,
       selectedImage st = Some img -> img <> EmptyString ->
       generateVideos world (build_request img (prompt st) (aspectRatio st))
         = Resolved first ->
       snd (generateAnimation n world st) <> None)).
Proof.
  assert (Hstall :
            (forall k, final_report (report world (Resolved first) k) = false) ->
            forall n, polling (snd (proceed n world (while_loop 0 first))) = true).
  { intros Hnot n. apply (still_polling world first n); [auto|lia]. }
  split; [split|].
  - intros [n Hn].
    destruct (first_true (fun k => final_report (report world (Resolved first) k))
                (S n)) as [(k0 & _ & Hk0 & _)|Hnone].
    + now exists k0.
    + rewrite (still_polling world first n) in Hn; [discriminate| |lia].
      intros k Hk. apply Hnone. lia.
  - intros [k Hk].
    destruct (first_true (fun k => final_report (report world (Resolved first) k))
                (S k)) as [(k0 & _ & Hk0 & Hmin)|Hnone].
    + exists (2 * k0). now apply loop_exits_at.
    + rewrite Hnone in Hk by lia. discriminate.
  - intros Hnot. split; [now apply Hstall|].
    intros st img n Himg Hne Hsubmit.
    unfold generateAnimation, start. rewrite Himg.
    destruct img as [|c rest]; [congruence|].
    destruct n as [|n]; [discriminate|].
    unfold proceed at 1. rewrite advance_step. cbn [resume answer].
    rewrite Hsubmit. specialize (Hstall Hnot n).
    destruct (proceed n world (while_loop 0 first)) as [evs [task|]];
      simpl in *; congruence.
Qed.

Lemma stalled_reports (k : nat) :
  report world_stalled (Resolved (pending "op")) k = Resolved (pending "op").
Proof. induction k as [|k IH]; [reflexivity|]. simpl. now rewrite IH. Qed.

(** A service that always answers "not done": after forty settlements the
    run is still polling. *)
Lemma stalled_service_keeps_polling :
  polling (snd (proceed 40 world_stalled (while_loop 0 (pending "op")))) = true.
Proof.
  refine (proj1 (proj2 (poll_loop_unbounded world_stalled (pending "op")) _) 40).
  intros k. rewrite stalled_reports. reflexivity.
Defined.

(** ** A successful run *)

(** Where a run stands one settlement after the submission and [m] turns
    later, when the handles of those turns were all reported not done: at
    the loop test of turn [m]. *)
Lemma run_reaches_turn {host : Host} (world : World) (st : State)
    (img : string) (ops : nat -> Operation) (m : nat) :
  selectedImage st = Some img -> img <> EmptyString ->
  generateVideos world (build_request img (prompt st) (aspectRatio st))
    = Resolved (ops 0) ->
  (forall k, k < m ->
             done (ops k) = false /\
             getVideosOperation world k (ops k) = Resolved (ops (S k))) ->
  generateAnimation (1 + 2 * m) world st =
  let (evs, rest) := while_loop m (ops m) in
  (fst (start st) ++ loop_trace ops m ++ evs, rest).
Proof.
  intros Himg Hne Hsubmit Hops.
  unfold generateAnimation. rewrite proceed_add. unfold start. rewrite Himg.
  destruct img as [|c rest]; [congruence|]. cbn [fst].
  set (req := build_request (String c rest) (prompt st) (aspectRatio st)) in *.
  unfold proceed at 2. rewrite advance_step. cbn [resume answer].
  rewrite Hsubmit, proceed_zero.
  pose proof (loop_turns world ops m Hops) as Hturns.
  destruct (while_loop 0 (ops 0)) as [evs0 rest0].
  rewrite proceed_prefix, Hturns.
  destruct (while_loop m (ops m)) as [evs rest']. reflexivity.
Qed.

(** C1.  In a run where the operation is reported not done exactly [n] times
    (handles [ops 0] .. [ops (n-1)]) and then done with a result URI, and no
    call fails, the run goes through these suspensions, one settlement
    apart.  It first awaits the submission.  In turn [k < n] it shows phrase
    [k mod 5] of the five, sets the 10000 ms timer and is suspended on that
    timer, with the status check not yet made; only the timer firing resumes
    it, and it then checks the status of [ops k] and is suspended on that
    check.  After turn [n - 1] it shows the "Downloading" step, fetches the
    URI (with the key appended) and awaits the fetch, then reads the blob
    and awaits it.  With [2 * n + 3] settlements or more it has returned and
    its effects are exactly those, followed by the asset set to the object
    URL of that blob and the [finally] block; the asset of the final state is
    that object URL and no error is set. *)
Theorem poll_then_download {host : Host} (world : World) (st : State)
    (img : string) (ops : nat -> Operation) (n : nat) (link : string)
    (r : Response) (blob : Blob) :
  selectedImage st = Some img -> img <> EmptyString ->
  generateVideos world (build_request img (prompt st) (aspectRatio st))
    = Resolved (ops 0) ->
  (forall k, k < n ->
             done (ops k) = false /\
             getVideosOperation world k (ops k) = Resolved (ops (S k))) ->
  done (ops n) = true ->
  video_uri (ops n) = Some link -> link <> EmptyString ->
  fetch world (link ++ "&key=" ++ API_KEY)%string = Resolved r ->
  response_blob world r = Resolved blob ->
  (forall fuel, 2 * n + 3 <= fuel ->
   let run := generateAnimation fuel world st in
   run =
     (fst (start st) ++
      loop_trace ops n ++
      [SetLoadingStep "Downloading final commercial asset...";
       Fetch (link ++ "&key=" ++ API_KEY)%string;
       ResponseBlob r;
       SetGeneratedVideoUrl (createObjectURL blob);
       SetIsGenerating false;
       SetLoadingStep EmptyString],
      None) /\
   generatedVideoUrl (apply_all st (fst run)) = Some (createObjectURL blob) /\
   error (apply_all st (fst run)) = None) /\
  generateAnimation 0 world st =
    (fst (start st),
     Some (AwaitGenerateVideos
             (build_request img (prompt st) (aspectRatio st)))) /\
  (forall k, k < n ->
     generateAnimation (2 * k + 1) world st =
       (fst (start st) ++
        loop_trace ops k ++
        [SetLoadingStep (nth (k mod 5) loadingMessages EmptyString);
         SetTimeout 10000],
        Some (AwaitTimeout (S k) (ops k))) /\
     (forall settlement,
         resume (AwaitTimeout (S k) (ops k)) settlement <> None ->
         settlement = TimerFired) /\
     generateAnimation (2 * k + 2) world st =
       (fst (start st) ++ loop_trace ops (S k),
        Some (AwaitGetVideosOperation (S k) (ops k)))) /\
  generateAnimation (2 * n + 1) world st =
    (fst (start st) ++
     loop_trace ops n ++
     [SetLoadingStep "Downloading final commercial asset...";
      Fetch (link ++ "&key=" ++ API_KEY)%string],
     Some (AwaitFetch (link ++ "&key=" ++ API_KEY)%string)) /\
  generateAnimation (2 * n + 2) world st =
    (fst (start st) ++
     loop_trace ops n ++
     [SetLoadingStep "Downloading final commercial asset...";
      Fetch (link ++ "&key=" ++ API_KEY)%string;
      ResponseBlob r],
     Some (AwaitBlob r)).
Proof.
  intros Himg Hne Hsubmit Hops Hdone Huri Hlink Hfetch Hblob.
  assert (Hstart : snd (start st) =
                   Some (AwaitGenerateVideos
                           (build_request img (prompt st) (aspectRatio st)))).
  { unfold start. rewrite Himg. destruct img; [congruence|reflexivity]. }
  (* the suspension on the fetch *)
  assert (Hfetching :
            generateAnimation (2 * n + 1) world st =
            (fst (start st) ++
             loop_trace ops n ++
             [SetLoadingStep "Downloading final commercial asset...";
              Fetch (link ++ "&key=" ++ API_KEY)%string],
             Some (AwaitFetch (link ++ "&key=" ++ API_KEY)%string))).
  { replace (2 * n + 1) with (1 + 2 * n) by lia.
    rewrite (run_reaches_turn world st img ops n Himg Hne Hsubmit Hops).
    unfold while_loop. rewrite Hdone. cbn [negb].
    unfold after_loop. rewrite Huri.
    destruct link as [|c' rest']; [congruence|reflexivity]. }
  (* the suspension on the blob *)
  assert (Hreading :
            generateAnimation (2 * n + 2) world st =
            (fst (start st) ++
             loop_trace ops n ++
             [SetLoadingStep "Downloading final commercial asset...";
              Fetch (link ++ "&key=" ++ API_KEY)%string;
              ResponseBlob r],
             Some (AwaitBlob r))).
  { replace (2 * n + 2) with ((2 * n + 1) + 1) by lia.
    unfold generateAnimation in *. rewrite proceed_add, Hfetching.
    unfold proceed. rewrite advance_step. cbn [resume answer].
    rewrite Hfetch, proceed_zero. cbn [app].
    now rewrite <- !app_assoc. }
  (* the return *)
  assert (Hreturned :
            generateAnimation (2 * n + 3) world st =
            (fst (start st) ++
             loop_trace ops n ++
             [SetLoadingStep "Downloading final commercial asset...";
              Fetch (link ++ "&key=" ++ API_KEY)%string;
              ResponseBlob r;
              SetGeneratedVideoUrl (createObjectURL blob);
              SetIsGenerating false;
              SetLoadingStep EmptyString],
             None)).
  { replace (2 * n + 3) with ((2 * n + 2) + 1) by lia.
    unfold generateAnimation in *. rewrite proceed_add, Hreading.
    unfold proceed. rewrite advance_step. cbn [resume answer].
    rewrite Hblob, proceed_finished.
    now rewrite <- !app_assoc. }
  split; [|split; [|split; [|split]]].
  - intros fuel Hfuel run.
    assert (Hrun : run = generateAnimation (2 * n + 3) world st).
    { subst run. replace fuel with ((2 * n + 3) + (fuel - (2 * n + 3))) by lia.
      unfold generateAnimation in *. apply proceed_returned.
      now rewrite Hreturned. }
    rewrite Hrun, Hreturned. split; [reflexivity|].
    cbn [fst]. rewrite !apply_all_app.
    split; [reflexivity|]. cbn [apply_all fold_left apply error].
    destruct (quiet_fields (apply_all st (fst (start st))) _
                (loop_trace_quiet ops n)) as (_ & _ & _ & ->).
    apply start_state. rewrite Himg. now destruct img.
  - unfold generateAnimation. rewrite proceed_zero.
    destruct (start st) as [evs0 rest0]. simpl in Hstart. now subst.
  - intros k Hk.
    assert (Hwaiting :
              generateAnimation (2 * k + 1) world st =
              (fst (start st) ++
               loop_trace ops k ++
               [SetLoadingStep (nth (k mod 5) loadingMessages EmptyString);
                SetTimeout 10000],
               Some (AwaitTimeout (S k) (ops k)))).
    { replace (2 * k + 1) with (1 + 2 * k) by lia.
      rewrite (run_reaches_turn world st img ops k Himg Hne Hsubmit)
        by (intros j Hj; apply Hops; lia).
      unfold while_loop. destruct (Hops k Hk) as [-> _]. reflexivity. }
    split; [exact Hwaiting|]. split.
    + intros settlement Hsome. destruct settlement; simpl in Hsome;
        congruence.
    + replace (2 * k + 2) with ((2 * k + 1) + 1) by lia.
      unfold generateAnimation in *. rewrite proceed_add, Hwaiting.
      unfold proceed. rewrite advance_step. cbn [resume answer].
      rewrite proceed_zero, loop_trace_S.
      now rewrite <- !app_assoc.
  - exact Hfetching.
  - exact Hreading.
Qed.

(** The scenario of the specification: not done three times, then done with
    one result URI.  In the second turn the run waits on the timer before
    it checks the status. *)
Lemma poll_then_download_three_turns :
  let run := generateAnimation 9 (world_done_after 3 demo_link) ready_state in
  fst run =
    fst (start ready_state) ++
    loop_trace (demo_ops 3 demo_link) 3 ++
    [SetLoadingStep "Downloading final commercial asset...";
     Fetch "https://video.example/v1?alt=media&key=k3y";
     ResponseBlob (host := demo_host)
       "response of https://video.example/v1?alt=media&key=k3y";
     SetGeneratedVideoUrl
       "blob:bytes of response of https://video.example/v1?alt=media&key=k3y";
     SetIsGenerating false;
     SetLoadingStep EmptyString] /\
  generatedVideoUrl (apply_all ready_state (fst run)) =
    Some "blob:bytes of response of https://video.example/v1?alt=media&key=k3y" /\
  generateAnimation 3 (world_done_after 3 demo_link) ready_state =
    (fst (start ready_state) ++
     loop_trace (demo_ops 3 demo_link) 1 ++
     [SetLoadingStep "Simulating physics and movement..."; SetTimeout 10000],
     Some (AwaitTimeout 2 (pending "op"))) /\
  generateAnimation 4 (world_done_after 3 demo_link) ready_state =
    (fst (start ready_state) ++ loop_trace (demo_ops 3 demo_link) 2,
     Some (AwaitGetVideosOperation 2 (pending "op"))).
Proof.
  pose proof
    (poll_then_download (host := demo_host)
       (world_done_after 3 demo_link) ready_state demo_image
       (demo_ops 3 demo_link) 3 demo_link
       "response of https://video.example/v1?alt=media&key=k3y"%string
       "bytes of response of https://video.example/v1?alt=media&key=k3y"%string)
    as H.
  assert (forall k, k < 3 ->
            done (demo_ops 3 demo_link k) = false /\
            getVideosOperation (world_done_after 3 demo_link) k
              (demo_ops 3 demo_link k)
            = Resolved (demo_ops 3 demo_link (S k))) as Hops.
  { intros k Hk. destruct k as [|[|[|k]]]; [split; reflexivity ..|lia]. }
  specialize (H eq_refl ltac:(discriminate) eq_refl Hops eq_refl eq_refl
                ltac:(discriminate) eq_refl eq_refl).
  destruct H as (Hfinal & _ & Hturns & _).
  destruct (Hfinal 9 ltac:(lia)) as (Hrun & Hurl & _).
  destruct (Hturns 1 ltac:(lia)) as (Hwaiting & _ & Hchecking).
  split; [exact (f_equal fst Hrun)|]. split; [exact Hurl|].
  split; [exact Hwaiting|exact Hchecking].
Defined.

(** ** Failures *)



(** C4.  When the operation is reported done but carries no result with a
    location (no response, no list, an empty list, no video, no URI or an
    empty URI), the run ends at once, without any further call: the error
    shown is "No video was generated in the response.", the busy flag is
    down, and the credential flag and the result asset are as before. *)
Theorem done_without_video_fails {host : Host} (st : State) (task : Await)
    (operation : Operation) :
  awaits_operation task = true ->
  done operation = true ->
  truthy (video_uri operation) = false ->
  exists evs,
    resume task (OperationSettled (Resolved operation)) = Some (evs, None) /\
    forallb (fun ev => negb (is_external_call ev)) evs = true /\
    let st' := apply_all st evs in
    error st' = Some "No video was generated in the response." /\
    isGenerating st' = false /\
    hasApiKey st' = hasApiKey st /\
    generatedVideoUrl st' = generatedVideoUrl st.
Proof.
  intros Htask Hdone Huri.
  exists (fst (throw (new_Error "No video was generated in the response."))).
  split; [|split; [reflexivity|repeat split]].
  destruct task; try discriminate; cbn [resume];
    unfold while_loop, after_loop; rewrite Hdone; cbn [negb];
    destruct (video_uri operation) as [[|c rest]|];
    try discriminate; reflexivity.
Qed.

(** The scenario of the specification: done, with zero results. *)
Lemma done_with_zero_results :
  exists evs,
    resume (host := demo_host) (AwaitGetVideosOperation 3 (pending "op"))
      (OperationSettled (Resolved (finished "op" (Some [])))) = Some (evs, None) /\
    forallb (fun ev => negb (is_external_call ev)) evs = true /\
    let st' := apply_all ready_state evs in
    error st' = Some "No video was generated in the response." /\
    isGenerating st' = false /\
    hasApiKey st' = hasApiKey ready_state /\
    generatedVideoUrl st' = generatedVideoUrl ready_state.
Proof.
  apply (done_without_video_fails (host := demo_host) ready_state
           (AwaitGetVideosOperation 3 (pending "op"))
           (finished "op" (Some []))); reflexivity.
Defined.

(** ** The request *)

(** C7.  Select a key, load an image, touch neither the prompt nor the
    format, and click Generate: the button is enabled, and the one request
    sent carries the text "Animate this character: " followed by the default
    phrase, and the aspect ratio "9:16". *)
Theorem blank_prompt_request {host : Host} (img : string) :
  img <> EmptyString ->
  let s := session_run initial_session
             [SelectKeyClicked (Resolved tt); ImageLoaded (Some img)] in
  prompt (ui s) = EmptyString /\
  generate_enabled (ui s) = true /\
  exists req,
    start (ui s) =
      ([SetIsGenerating true;
        SetError None;
        SetLoadingStep "Initializing AI engine...";
        NewGoogleGenAI API_KEY;
        SetLoadingStep "Uploading reference frame to Veo...";
        GenerateVideos req],
       Some (AwaitGenerateVideos req)) /\
    tasks (session_step s GenerateClicked) = [AwaitGenerateVideos req] /\
    request_prompt req =
      "Animate this character: Natural movement in high quality commercial lighting" /\
    config_aspectRatio (config req) = "9:16".
Proof.
  intros Himg. destruct img as [|c rest]; [congruence|]. cbn zeta.
  split; [reflexivity|]. split; [reflexivity|].
  eexists. split; [reflexivity|]. split; [reflexivity|]. split; reflexivity.
Qed.

Lemma blank_prompt_request_demo :
  let s := session_run (host := demo_host) initial_session
             [SelectKeyClicked (Resolved tt); ImageLoaded (Some demo_image)] in
  exists req,
    tasks (session_step s GenerateClicked)
    = [AwaitGenerateVideos (host := demo_host) req] /\
    request_prompt req =
      "Animate this character: Natural movement in high quality commercial lighting" /\
    config_aspectRatio (config req) = "9:16".
Proof.
  destruct (blank_prompt_request (host := demo_host) demo_image
              ltac:(discriminate)) as (_ & _ & req & _ & Htasks & Htext & Hratio).
  exists req. auto.
Defined.

(** C10.  In a run that starts, the text of the request is "Animate this
    character: " followed by the prompt as it stands, whatever it holds, as
    soon as it is not the empty string; the default phrase stands in for the
    empty string only. *)
Theorem default_prompt_only_when_empty {host : Host} (st : State) :
  truthy (selectedImage st) = true ->
  exists req,
    snd (start st) = Some (AwaitGenerateVideos req) /\
    filter is_external_call (fst (start st)) = [GenerateVideos req] /\
    (prompt st = EmptyString ->
     request_prompt req =
       "Animate this character: Natural movement in high quality commercial lighting") /\
    (prompt st <> EmptyString ->
     request_prompt req = ("Animate this character: " ++ prompt st)%string).
Proof.
  intros Himg. unfold start.
  destruct (selectedImage st) as [[|c rest]|]; try discriminate.
  eexists. split; [reflexivity|]. split; [reflexivity|].
  cbn [build_request request_prompt]. split.
  - intros ->. reflexivity.
  - intros Hne. destruct (prompt st); [congruence|reflexivity].
Qed.

(** A prompt of three blanks is sent as it is. *)
Lemma blank_prompt_sent_verbatim :
  exists req,
    snd (start (host := demo_host) blank_prompt_state)
    = Some (AwaitGenerateVideos (host := demo_host) req) /\
    request_prompt req = "Animate this character:    ".
Proof.
  destruct (default_prompt_only_when_empty (host := demo_host)
              blank_prompt_state eq_refl)
    as (req & Hreq & _ & _ & Htext).
  exists req. split; [exact Hreq|]. apply Htext. discriminate.
Defined.

(** ** The credential gate *)

(** C8.  When the credential query raises, [checkApiKey] logs the failure
    and returns normally, with no effect on the state; on a fresh page the
    credential flag stays [false] and the gate screen is rendered. *)
Theorem credential_check_failure_shows_gate {host : Host} (err : Error) :
  checkApiKey (Rejected err)
  = ([ConsoleError (Some "API key check failed") err], Returned) /\
  (forall st, apply_all st (fst (checkApiKey (Rejected err))) = st) /\
  let s := session_step initial_session (ApiKeyChecked (Rejected err)) in
  hasApiKey (ui s) = false /\
  render (ui s) = GateScreen /\
  tasks s = [].
Proof. repeat split. Qed.

(** ** The shape of a run *)

Section Shapes.

Context {host : Host}.

Lemma stretch_run_shape (stretch : Stretch) :
  stretch_shape stretch -> run_shape stretch.
Proof.
  intros [evs task Hq|blob|err].
  - exists evs, []. rewrite app_nil_r. repeat split; [assumption|constructor].
  - exists [], (SetGeneratedVideoUrl (createObjectURL blob) :: finally_block).
    repeat split. constructor.
  - exists [], (catch_block err ++ finally_block).
    repeat split. constructor.
Qed.

Lemma run_shape_prefix (pre evs : list Event) (rest : option Await) :
  forallb quiet pre = true ->
  run_shape (evs, rest) -> run_shape (pre ++ evs, rest).
Proof.
  intros Hpre (body & tail & Hevs & Hbody & Hend). simpl in *. subst evs.
  exists (pre ++ body), tail. simpl.
  rewrite app_assoc, quiet_app, Hpre, Hbody. auto.
Qed.

Lemma advance_shape (world : World) (n : nat) :
  forall task, run_shape (advance n world task).
Proof.
  induction n as [|n IH]; intros task.
  - exists [], []. repeat split. constructor.
  - rewrite advance_step.
    destruct (resume_answer world task) as [stretch Hres]. rewrite Hres.
    destruct (resume_shape task _ stretch Hres) as [evs task' Hq|blob|err].
    + simpl. specialize (IH task').
      destruct (advance n world task') as [more rest].
      now apply run_shape_prefix.
    + apply stretch_run_shape. constructor.
    + apply stretch_run_shape. constructor.
Qed.

(** A call of [generateAnimation] does nothing at all, or raises the busy
    flag, clears the error, and goes on quietly to its ending. *)
Lemma generateAnimation_shape (n : nat) (world : World) (st : State) :
  let run := generateAnimation n world st in
  (truthy (selectedImage st) = false /\ run = ([], None)) \/
  (truthy (selectedImage st) = true /\
   exists body tail,
     fst run = SetIsGenerating true :: SetError None :: body ++ tail /\
     forallb quiet body = true /\
     ending tail (snd run)).
Proof.
  unfold generateAnimation, start.
  destruct (selectedImage st) as [[|c rest]|]; simpl; auto.
  right. split; [reflexivity|].
  set (req := build_request (String c rest) (prompt st) (aspectRatio st)).
  destruct (advance_shape world n (AwaitGenerateVideos req))
    as (body & tail & Hevs & Hbody & Hend).
  destruct (advance n world (AwaitGenerateVideos req)) as [more rest'].
  simpl in *. subst more.
  exists (SetLoadingStep "Initializing AI engine..."
          :: NewGoogleGenAI API_KEY
          :: SetLoadingStep "Uploading reference frame to Veo..."
          :: GenerateVideos req :: body), tail.
  repeat split; assumption.
Qed.

(** No ending makes a call into the outside world. *)
Lemma ending_makes_no_call (tail : list Event) (rest : option Await) :
  ending tail rest ->
  forallb (fun ev => negb (is_external_call ev)) tail = true.
Proof.
  intros [task|blob|err]; try reflexivity.
  unfold catch_block. destruct (entity_not_found err); reflexivity.
Qed.

(** An external call in [body ++ tail] sits in [body] when [tail] makes
    none. *)
Lemma call_in_body (body tail before after : list Event) (ev : Event) :
  body ++ tail = before ++ ev :: after ->
  forallb (fun ev => negb (is_external_call ev)) tail = true ->
  is_external_call ev = true ->
  exists after', body = before ++ ev :: after'.
Proof.
  revert before. induction body as [|b body IH]; intros before Hsplit Htail Hev.
  - simpl in Hsplit. subst tail.
    rewrite forallb_app in Htail. simpl in Htail. rewrite Hev in Htail.
    simpl in Htail. rewrite andb_false_r in Htail. discriminate.
  - destruct before as [|b' before]; simpl in Hsplit; inversion Hsplit; subst.
    + now exists body.
    + destruct (IH before H1 Htail Hev) as [after' ->]. now exists after'.
Qed.

(** What an ending does to the asset and the error. *)
Lemma ending_state (st : State) (tail : list Event) (rest : option Await) :
  ending tail rest ->
  let st' := apply_all st tail in
  (rest <> None /\ st' = st) \/
  (rest = None /\ error st' = error st /\
   exists blob, generatedVideoUrl st' = Some (createObjectURL blob)) \/
  (rest = None /\ generatedVideoUrl st' = generatedVideoUrl st /\
   exists msg, error st' = Some msg).
Proof.
  intros [task|blob|err]; simpl.
  - left. split; [discriminate|reflexivity].
  - right. left. repeat split. now exists blob.
  - right. right. split; [reflexivity|].
    destruct (throw_state st err) as (Hurl & _ & Herr & _). auto.
Qed.

End Shapes.

(** ** What a run does to the error and to the asset *)

(** C9.  In every call of [generateAnimation], cut anywhere: a call that gets
    past the guard of line 75 raises the busy flag and then clears the error,
    before anything else, and each call into the outside world comes after
    that [setError(null)], at a point where the error is absent; a call
    stopped by the guard makes no call at all.  The asset is never cleared:
    if it was set before the call it is set afterwards; a call that leaves an
    error behind leaves the asset exactly as it was; and the asset changes
    only in a call that has returned with the object URL of a freshly fetched
    blob and no error. *)
Theorem error_cleared_asset_kept {host : Host} (n : nat) (world : World)
    (st : State) :
  let run := generateAnimation n world st in
  let st' := apply_all st (fst run) in
  (truthy (selectedImage st) = true ->
   exists rest, fst run = SetIsGenerating true :: SetError None :: rest) /\
  (truthy (selectedImage st) = false -> run = ([], None)) /\
  (forall before ev after,
      fst run = before ++ ev :: after ->
      is_external_call ev = true ->
      In (SetError None) before /\ error (apply_all st before) = None) /\
  (generatedVideoUrl st <> None -> generatedVideoUrl st' <> None) /\
  (error st' <> None -> generatedVideoUrl st' = generatedVideoUrl st) /\
  (generatedVideoUrl st' <> generatedVideoUrl st ->
   snd run = None /\ error st' = None /\
   exists blob, generatedVideoUrl st' = Some (createObjectURL blob)).
Proof.
  intros run st'.
  destruct (generateAnimation_shape n world st)
    as [[Hguard Hnoop]|(Hguard & body & tail & Hevs & Hbody & Hend)];
    fold run in Hnoop || fold run in Hevs, Hend.
  - (* the guard of line 75 returned *)
    subst st'. rewrite Hnoop.
    split; [intros Himg; congruence|]. split; [reflexivity|]. simpl.
    repeat split; auto; try congruence; destruct before; discriminate.
  - split; [intros _; exists (body ++ tail); exact Hevs|].
    split; [intros Himg; congruence|].
    assert (Hcalls :
              forall before ev after,
                fst run = before ++ ev :: after ->
                is_external_call ev = true ->
                In (SetError None) before /\ error (apply_all st before) = None).
    { intros before ev after Hsplit Hev. rewrite Hevs in Hsplit.
      change (SetIsGenerating true :: SetError None :: body ++ tail)
        with ((SetIsGenerating true :: SetError None :: body) ++ tail) in Hsplit.
      destruct (call_in_body _ _ _ _ _ Hsplit (ending_makes_no_call _ _ Hend) Hev)
        as [after' Hin].
      destruct before as [|b1 [|b2 before]]; simpl in Hin; inversion Hin; subst;
        try discriminate.
      split; [simpl; auto|].
      rewrite quiet_app in Hbody. apply andb_true_iff in Hbody as [Hbefore _].
      change (apply_all st (SetIsGenerating true :: SetError None :: before))
        with (apply_all (apply (apply st (SetIsGenerating true)) (SetError None))
                before).
      now destruct (quiet_fields
                      (apply (apply st (SetIsGenerating true)) (SetError None))
                      before Hbefore) as (_ & _ & _ & ->). }
    split; [exact Hcalls|].
    set (st2 := apply (apply st (SetIsGenerating true)) (SetError None)).
    assert (Hst' : st' = apply_all (apply_all st2 body) tail).
    { subst st' st2. rewrite Hevs.
      change (SetIsGenerating true :: SetError None :: body ++ tail)
        with ([SetIsGenerating true; SetError None] ++ body ++ tail).
      now rewrite !apply_all_app. }
    destruct (quiet_fields st2 body Hbody) as (_ & _ & Hurl & Herr).
    simpl in Hurl, Herr.
    destruct (ending_state (apply_all st2 body) tail (snd run) Hend)
      as [[Hrest E]|[(Hrest & Herr' & blob & Hblob)|(Hrest & Hurl' & msg & Hmsg)]];
      rewrite <- Hst' in *.
    + rewrite E, Hurl, Herr. repeat split; congruence.
    + rewrite Herr', Herr, Hblob. repeat split; try congruence.
      now exists blob.
    + rewrite Hurl', Hurl. repeat split; congruence.
Qed.

(** A session that shows the asset of an earlier run; the next submission is
    turned down: the asset is still there. *)
Lemma asset_survives_failed_run :
  let run := generateAnimation 1 world_rejecting state_with_asset in
  generatedVideoUrl (apply_all state_with_asset (fst run)) = Some "blob:earlier" /\
  error (apply_all state_with_asset (fst run)) =
    Some "API Key session expired or invalid. Please select a paid project key.".
Proof.
  split; [|reflexivity].
  apply (proj1 (proj2 (proj2 (proj2 (proj2
           (error_cleared_asset_kept 1 world_rejecting state_with_asset)))))).
  vm_compute. discriminate.
Defined.

(** ** Every reachable session *)

Section Sessions.

Context {host : Host}.

Lemma invariant_initial : session_invariant initial_session.
Proof. left. split; reflexivity. Qed.

Lemma at_index_nil {A : Type} (i : nat) : at_index (@nil A) i = None.
Proof. destruct i; reflexivity. Qed.

Lemma at_index_single {A : Type} (a b : A) (i : nat) :
  at_index [a] i = Some b -> i = 0 /\ b = a.
Proof.
  destruct i as [|i]; simpl; intros H; [inversion H; auto|].
  now rewrite at_index_nil in H.
Qed.

(** A click on Generate that goes through finds no run in flight and leaves
    exactly one. *)
Lemma click_starts_one_run (s : Session) :
  session_invariant s ->
  generate_enabled (ui s) = true ->
  tasks s = [] /\
  truthy (selectedImage (ui s)) = true /\
  exists req,
    session_step s GenerateClicked =
    {| ui := apply_all (ui s) (fst (start (ui s)));
       tasks := [AwaitGenerateVideos req] |} /\
    snd (start (ui s)) = Some (AwaitGenerateVideos req).
Proof.
  intros Hinv Hen. unfold session_step. rewrite Hen.
  unfold generate_enabled, render in Hen.
  destruct (hasApiKey (ui s)); [|discriminate]. simpl in Hen.
  apply negb_true_iff, orb_false_iff in Hen as [Himg Hbusy].
  apply negb_false_iff in Himg.
  destruct Hinv as [[Htasks _]|(task & _ & Hbusy' & _)]; [|congruence].
  split; [assumption|]. split; [assumption|].
  unfold start. destruct (selectedImage (ui s)) as [[|c rest]|];
    try discriminate.
  eexists. rewrite Htasks. split; reflexivity.
Qed.

Lemma invariant_step (s : Session) (a : Action) :
  session_invariant s -> session_invariant (session_step s a).
Proof.
  intros Hinv. destruct a as [sel|opened|result|text|idx|idx| |i settlement| ].
  - destruct sel; exact Hinv.
  - simpl. destruct (hasApiKey (ui s)); [exact Hinv|].
    destruct opened; exact Hinv.
  - exact Hinv.
  - simpl. destruct (hasApiKey (ui s)); exact Hinv.
  - simpl. destruct (hasApiKey (ui s)), (at_index PRESET_POSITIONS idx);
      exact Hinv.
  - simpl. destruct (hasApiKey (ui s)), (at_index ASPECT_RATIOS idx) as [[]|];
      exact Hinv.
  - destruct (generate_enabled (ui s)) eqn:Hen.
    + destruct (click_starts_one_run s Hinv Hen) as (_ & Himg & req & -> & _).
      right. exists (AwaitGenerateVideos req). simpl.
      destruct (start_state (ui s) Himg) as (Hbusy & Herr & _). auto.
    + simpl. rewrite Hen. exact Hinv.
  - simpl. destruct (at_index (tasks s) i) as [task|] eqn:Hat; [|exact Hinv].
    destruct (resume task settlement) as [[evs rest]|] eqn:Hres; [|exact Hinv].
    destruct Hinv as [[Htasks _]|(task0 & Htasks & Hbusy & Herr)].
    { rewrite Htasks, at_index_nil in Hat. discriminate. }
    rewrite Htasks in Hat. apply at_index_single in Hat as [-> ->].
    rewrite Htasks. simpl.
    pose proof (resume_shape _ _ _ Hres) as Hshape.
    inversion Hshape as [evs' task' Hq E|blob E|err E]; subst; simpl.
    + right. exists task'. split; [reflexivity|]. cbn [ui].
      destruct (quiet_fields (ui s) evs Hq) as (_ & -> & _ & ->). auto.
    + left. auto.
    + left. split; [reflexivity|]. cbn [ui].
      destruct (throw_state (ui s) err) as (_ & Hgen & _). exact Hgen.
  - apply invariant_initial.
Qed.

Lemma invariant_run (actions : list Action) :
  forall s, session_invariant s -> session_invariant (session_run s actions).
Proof.
  induction actions as [|a actions IH]; intros s Hinv; [exact Hinv|].
  apply IH, invariant_step, Hinv.
Qed.

Lemma invariant_reachable (actions : list Action) :
  session_invariant (session_run initial_session actions).
Proof. apply invariant_run, invariant_initial. Qed.


End Sessions.

(** ** The asset and the error *)




(** ** One job at a time *)

(** C6.  On the main screen the Generate button is disabled exactly when no
    image is set or the busy flag is up, and a click on the disabled button
    changes nothing.  Called with no image, [generateAnimation] has no effect
    and starts nothing.  Called with an image, it makes exactly one call into
    the outside world, the submission, and is left waiting for it.  In every
    reachable session at most one run is in flight, the busy flag is up
    exactly while there is one, and a click that goes through finds none and
    leaves exactly one. *)
Theorem one_job_at_a_time {host : Host} :
  (forall st view,
      render st = MainScreen view ->
      (generate_disabled view = true <->
       truthy (selectedImage st) = false \/ isGenerating st = true)) /\
  (forall s, generate_enabled (ui s) = false -> session_step s GenerateClicked = s) /\
  (forall st n world,
      truthy (selectedImage st) = false ->
      start st = ([], None) /\ generateAnimation n world st = ([], None)) /\
  (forall st,
      truthy (selectedImage st) = true ->
      exists req,
        snd (start st) = Some (AwaitGenerateVideos req) /\
        filter is_external_call (fst (start st)) = [GenerateVideos req]) /\
  (forall actions,
      let s := session_run initial_session actions in
      length (tasks s) <= 1 /\
      (isGenerating (ui s) = true <-> tasks s <> []) /\
      (generate_enabled (ui s) = true ->
       tasks s = [] /\ length (tasks (session_step s GenerateClicked)) = 1)).
Proof.
  split; [|split; [|split; [|split]]].
  - intros st view Hrender. unfold render in Hrender.
    destruct (hasApiKey st); [|discriminate]. simpl in Hrender.
    inversion Hrender; subst; clear Hrender. cbn [generate_disabled].
    rewrite orb_true_iff, negb_true_iff. reflexivity.
  - intros s Hen. simpl. now rewrite Hen.
  - intros st n world Himg. unfold generateAnimation, start.
    destruct (selectedImage st) as [[|c rest]|]; try discriminate; auto.
  - intros st Himg. unfold start.
    destruct (selectedImage st) as [[|c rest]|]; try discriminate.
    eexists. split; reflexivity.
  - intros actions s. pose proof (invariant_reachable actions) as Hinv.
    fold s in Hinv. split; [|split].
    + destruct Hinv as [[-> _]|(task & -> & _)]; simpl; lia.
    + destruct Hinv as [[Hnone Hidle]|(task & Hone & Hbusy & _)];
        rewrite ?Hnone, ?Hone; split; congruence.
    + intros Hen.
      destruct (click_starts_one_run s Hinv Hen) as (Hnone & _ & req & -> & _).
      auto.
Qed.

(** A second click while the first run is in flight: still one run. *)
Lemma second_click_starts_nothing :
  let s := session_run (host := demo_host) initial_session
             [SelectKeyClicked (Resolved tt); ImageLoaded (Some demo_image);
              GenerateClicked] in
  generate_enabled (ui s) = false /\
  session_step s GenerateClicked = s /\
  length (tasks s) = 1.
Proof.
  split; [reflexivity|]. split; [|reflexivity].
  apply (proj1 (proj2 (one_job_at_a_time (host := demo_host)))).
  reflexivity.
Defined.

(** * More of the code *)

(** ** Strings: [split] and [includes] *)

Lemma append_assoc (a b c : string) :
  ((a ++ b) ++ c)%string = (a ++ b ++ c)%string.
Proof. induction a as [|x a IH]; simpl; [reflexivity|now rewrite IH]. Qed.

Lemma mentions_app (c : ascii) (a b : string) :
  mentions c (a ++ b)%string = mentions c a || mentions c b.
Proof.
  induction a as [|c' a IH]; simpl; [reflexivity|].
  now rewrite IH, orb_assoc.
Qed.

Lemma split_not_nil (sep : ascii) (s : string) : split sep s <> [].
Proof.
  destruct s as [|c rest]; simpl; [discriminate|].
  destruct (Ascii.eqb c sep); [discriminate|].
  destruct (split sep rest); discriminate.
Qed.

Lemma split_without (sep : ascii) (s : string) :
  mentions sep s = false -> split sep s = [s].
Proof.
  induction s as [|c rest IH]; simpl; [reflexivity|].
  intros H. apply orb_false_iff in H as [Hc Hrest].
  now rewrite Hc, IH.
Qed.

Lemma split_at_first (sep : ascii) (a b : string) :
  mentions sep a = false ->
  split sep (a ++ String sep b)%string = a :: split sep b.
Proof.
  induction a as [|c a IH]; simpl.
  - intros _. now rewrite Ascii.eqb_refl.
  - intros H. apply orb_false_iff in H as [Hc Ha].
    now rewrite Hc, IH.
Qed.

Lemma first_mention (sep : ascii) (s : string) :
  mentions sep s = true ->
  exists a b, s = (a ++ String sep b)%string /\ mentions sep a = false.
Proof.
  induction s as [|c rest IH]; simpl; [discriminate|].
  destruct (Ascii.eqb c sep) eqn:Hc; simpl.
  - intros _. apply Ascii.eqb_eq in Hc as ->.
    now exists EmptyString, rest.
  - intros H. destruct (IH H) as (a & b & -> & Ha).
    exists (String c a), b. simpl. now rewrite Hc.
Qed.

Lemma prefix_spec (a s : string) :
  String.prefix a s = true <-> exists post, s = (a ++ post)%string.
Proof.
  revert s. induction a as [|c a IH]; intros s.
  - split; [intros _; now exists s|intros _; now destruct s].
  - destruct s as [|c' s]; simpl.
    + split; [discriminate|intros [post H]; discriminate].
    + destruct (ascii_dec c c') as [->|Hne].
      * rewrite IH. split; intros [post H]; exists post; congruence.
      * split; [discriminate|intros [post H]; congruence].
Qed.

Lemma includes_spec (needle hay : string) :
  includes needle hay = true <->
  exists pre post, hay = (pre ++ needle ++ post)%string.
Proof.
  induction hay as [|c hay IH]; cbn [includes].
  - rewrite orb_false_r, prefix_spec. split.
    + intros [post H]. now exists EmptyString, post.
    + intros (pre & post & H). destruct pre; [now exists post|discriminate].
  - rewrite orb_true_iff, IH.
    rewrite (prefix_spec needle (String c hay)). split.
    + intros [[post H]|(pre & post & H)].
      * now exists EmptyString, post.
      * exists (String c pre), post. simpl. now rewrite H.
    + intros (pre & post & H). destruct pre as [|c' pre]; simpl in H.
      * left. now exists post.
      * right. exists pre, post. congruence.
Qed.

(** X1.  The credential is dropped for exactly the errors whose message holds
    the text "Requested entity was not found" somewhere, with anything
    before and after it; an error without a message never drops it. *)
Theorem entity_not_found_anywhere (err : Error) :
  entity_not_found err = true <->
  exists pre post,
    message err =
    Some (pre ++ "Requested entity was not found" ++ post)%string.
Proof.
  unfold entity_not_found. destruct (message err) as [m|].
  - rewrite includes_spec. split; intros (pre & post & H); exists pre, post;
      congruence.
  - split; [discriminate|intros (pre & post & H); discriminate].
Qed.

(** ** The image payload (lines 86-87) *)

(** X2.  For an image string of the form [data:<mime>;base64,<payload>], as
    [readAsDataURL] (line 70) produces them, with a media type free of [:],
    [;] and [,] and a payload free of [,], the request carries the payload as
    the image bytes and the media type as the mime type. *)
Theorem data_url_is_taken_apart (mime payload prompt aspectRatio : string) :
  mentions ":" mime = false ->
  mentions ";" mime = false ->
  mentions "," mime = false ->
  mentions "," payload = false ->
  image (build_request ("data:" ++ mime ++ ";base64," ++ payload)%string
           prompt aspectRatio) =
  {| imageBytes := Some payload; mimeType := Some mime |}.
Proof.
  intros Hcolon Hsemi Hcomma Hpayload.
  assert (Ebytes : ("data:" ++ mime ++ ";base64," ++ payload)%string =
                   (("data:" ++ mime ++ ";base64") ++ String "," payload)%string)
    by (rewrite !append_assoc; reflexivity).
  assert (Emime : ("data:" ++ mime ++ ";base64," ++ payload)%string =
                  (("data:" ++ mime) ++ String ";" ("base64," ++ payload))%string)
    by (rewrite !append_assoc; reflexivity).
  unfold build_request. cbn [image]. f_equal.
  - rewrite Ebytes, split_at_first.
    + now rewrite (split_without "," payload Hpayload).
    + rewrite !mentions_app, Hcomma. reflexivity.
  - rewrite Emime, split_at_first
      by (rewrite mentions_app, Hsemi; reflexivity).
    change ("data:" ++ mime)%string with ("data" ++ String ":" mime)%string.
    rewrite split_at_first by reflexivity.
    now rewrite (split_without ":" mime Hcolon).
Qed.

Lemma demo_image_is_taken_apart :
  image (build_request demo_image EmptyString "9:16") =
  {| imageBytes := Some "iVBORw0KGgo="; mimeType := Some "image/png" |}.
Proof.
  apply (data_url_is_taken_apart "image/png" "iVBORw0KGgo=" EmptyString "9:16");
    reflexivity.
Defined.

(** X3.  Nothing checks the image string: the submission goes out whatever
    it holds, and its image bytes are missing exactly when the string has no
    comma. *)
Theorem image_bytes_missing_without_comma {host : Host} (st : State)
    (img : string) :
  selectedImage st = Some img -> img <> EmptyString ->
  exists req,
    snd (start st) = Some (AwaitGenerateVideos req) /\
    (imageBytes (image req) = None <-> mentions "," img = false).
Proof.
  intros Himg Hne. unfold start. rewrite Himg.
  destruct img as [|c rest]; [congruence|].
  eexists. split; [reflexivity|]. cbn [build_request image imageBytes].
  set (img := String c rest). split.
  - intros Hnone. destruct (mentions "," img) eqn:Hm; [|reflexivity].
    destruct (first_mention _ _ Hm) as (a & b & E & Ha).
    rewrite E, split_at_first in Hnone by assumption.
    pose proof (split_not_nil "," b) as Hb.
    destruct (split "," b); [congruence|discriminate].
  - intros Hm. now rewrite split_without.
Qed.

Lemma plain_image_is_sent_without_bytes :
  exists req,
    snd (start (host := demo_host)
           (apply (host := demo_host) ready_state
              (SetSelectedImage (Some plain_image))))
    = Some (AwaitGenerateVideos (host := demo_host) req) /\
    imageBytes (image req) = None.
Proof.
  destruct (image_bytes_missing_without_comma (host := demo_host)
              (apply (host := demo_host) ready_state
                 (SetSelectedImage (Some plain_image)))
              plain_image eq_refl ltac:(discriminate))
    as (req & Hreq & Hbytes).
  exists req. split; [exact Hreq|]. apply Hbytes. reflexivity.
Defined.

(** ** The status phrases (lines 105-116) *)

(** X4.  Whatever the turn, the loop shows one of the five phrases, never a
    missing one, and the phrase of turn [i + 5] is that of turn [i]. *)
Theorem status_phrase_in_range {host : Host} (i : nat) (operation : Operation) :
  done operation = false ->
  exists phrase,
    while_loop i operation =
      ([SetLoadingStep phrase; SetTimeout 10000],
       Some (AwaitTimeout (S i) operation)) /\
    In phrase loadingMessages /\
    phrase <> EmptyString /\
    fst (while_loop (i + 5) operation) = fst (while_loop i operation).
Proof.
  intros Hdone. unfold while_loop. rewrite Hdone. cbn [negb fst].
  change (length loadingMessages) with 5.
  eexists. split; [reflexivity|].
  replace ((i + 5) mod 5) with (i mod 5)
    by (symmetry; apply (Nat.Div0.mod_add i 1 5)).
  pose proof (Nat.mod_upper_bound i 5 ltac:(lia)) as Hlt.
  destruct (i mod 5) as [|[|[|[|[|k]]]]]; try lia;
    (split; [simpl; tauto|split; [discriminate|reflexivity]]).
Qed.

Lemma status_phrase_of_turn_seven :
  exists phrase,
    while_loop (host := demo_host) 7 (pending "op") =
      ([SetLoadingStep phrase; SetTimeout 10000],
       Some (AwaitTimeout 8 (pending "op"))) /\
    In phrase loadingMessages.
Proof.
  destruct (status_phrase_in_range (host := demo_host) 7 (pending "op") eq_refl)
    as (phrase & Hloop & Hin & _).
  now exists phrase.
Defined.

(** ** Every run, whatever the world answers *)

Section Runs.

Context {host : Host}.

Lemma resume_forall (P : Event -> Prop) :
  (forall operation, P (GetVideosOperation operation)) ->
  (forall r, P (ResponseBlob r)) ->
  (forall s, P (SetLoadingStep s)) ->
  (forall ms, P (SetTimeout ms)) ->
  (forall b, P (SetIsGenerating b)) ->
  (forall u, P (SetGeneratedVideoUrl u)) ->
  (forall e, P (SetError e)) ->
  (forall e, P (ConsoleError None e)) ->
  P (SetHasApiKey false) ->
  (forall link, link <> EmptyString ->
                P (Fetch (link ++ "&key=" ++ API_KEY)%string)) ->
  forall task settlement evs rest,
    resume task settlement = Some (evs, rest) -> Forall P evs.
Proof.
  intros Hget Hblob Hstep Htimer Hbusy Hurl Herr Hlog Hkey Hfetch.
  assert (Hthrow : forall err, Forall P (fst (throw err))).
  { intros err. unfold throw, catch_block. cbn [fst].
    destruct (entity_not_found err); repeat constructor; auto. }
  assert (Hafter : forall operation, Forall P (fst (after_loop operation))).
  { intros operation. unfold after_loop.
    destruct (video_uri operation) as [[|c link]|]; try apply Hthrow.
    repeat constructor; auto. apply Hfetch. discriminate. }
  assert (Hloop : forall i operation, Forall P (fst (while_loop i operation))).
  { intros i operation. unfold while_loop.
    destruct (done operation); cbn [negb]; [apply Hafter|].
    repeat constructor; auto. }
  intros task settlement evs rest Hres.
  destruct task, settlement as [[op|err]| |[r'|err]|[b|err]];
    simpl in Hres; inversion Hres; subst; clear Hres;
    try apply (Hthrow err); try apply Hloop;
    try (change evs with (fst (evs, rest)); rewrite <- H0; apply Hloop);
    repeat constructor; auto.
Qed.



Lemma inputs_kept (evs : list Event) :
  Forall (fun ev => touches_input ev = false) evs ->
  forall st,
    selectedImage (apply_all st evs) = selectedImage st /\
    prompt (apply_all st evs) = prompt st /\
    aspectRatio (apply_all st evs) = aspectRatio st.
Proof.
  induction 1 as [|ev evs Hev _ IH]; intros st; [auto|].
  change (apply_all st (ev :: evs)) with (apply_all (apply st ev) evs).
  destruct (IH (apply st ev)) as (-> & -> & ->).
  destruct ev; try discriminate; auto.
Qed.

Lemma resume_keeps_inputs (task : Await) (settlement : Settlement)
      (evs : list Event) (rest : option Await) :
  resume task settlement = Some (evs, rest) ->
  Forall (fun ev => touches_input ev = false) evs.
Proof. apply resume_forall; reflexivity. Qed.




End Runs.





(** ** Where the asset is downloaded from *)

Section Downloads.

Context {host : Host} (world : World) (first : Settled Operation).

Lemma throw_fetches_nothing (err : Error) (url : string) :
  ~ In (Fetch url) (fst (throw err)).
Proof.
  unfold throw, catch_block. cbn [fst].
  destruct (entity_not_found err); simpl; intuition discriminate.
Qed.

(** The loop test on report [k]. *)
Lemma while_loop_schedule (k : nat) (operation : Operation) :
  report world first k = Resolved operation ->
  (forall j, j < k -> final_report (report world first j) = false) ->
  (forall url, In (Fetch url) (fst (while_loop k operation)) ->
               download_of_report world first url) /\
  (forall task, snd (while_loop k operation) = Some task ->
                on_schedule world first task).
Proof.
  intros Hreport Hbefore. unfold while_loop.
  destruct (done operation) eqn:Hdone; cbn [negb].
  - unfold after_loop.
    destruct (video_uri operation) as [[|c link]|] eqn:Huri;
      try (split; [intros url Hin; now apply throw_fetches_nothing in Hin
                  |intros task E; discriminate E]).
    assert (Hgood : download_of_report world first
                      (String c link ++ "&key=" ++ API_KEY)%string).
    { exists k, operation, (String c link).
      repeat split; auto. discriminate. }
    split.
    + intros url [E|[E|[]]]; [discriminate E|]. inversion E. exact Hgood.
    + intros task E. inversion E. exact Hgood.
  - split.
    + intros url [E|[E|[]]]; discriminate E.
    + intros task E. inversion E. exists k. repeat split; auto.
      intros j Hj. destruct (Nat.eq_dec j k) as [->|Hne].
      * rewrite Hreport. exact Hdone.
      * apply Hbefore. lia.
Qed.

Lemma schedule_step (task : Await) (evs : list Event) (rest : option Await) :
  on_schedule world first task ->
  resume task (answer world task) = Some (evs, rest) ->
  (forall url, In (Fetch url) evs -> download_of_report world first url) /\
  (forall task', rest = Some task' -> on_schedule world first task').
Proof.
  intros Hon Hres. destruct task as [req|i op|i op|url0|r0]; simpl in Hon.
  - contradiction.
  - cbn [resume answer] in Hres. inversion Hres; subst. split.
    + intros url [E|[]]. discriminate E.
    + intros task' E. inversion E. exact Hon.
  - destruct Hon as (k & -> & Hreport & Hnot).
    cbn [resume answer pred] in Hres.
    assert (Hnext : report world first (S k) = getVideosOperation world k op)
      by (cbn [report]; now rewrite Hreport).
    destruct (getVideosOperation world k op) as [operation|err].
    + inversion Hres as [E].
      destruct (while_loop_schedule (S k) operation Hnext) as [Hfetch Hrest].
      { intros j Hj. apply Hnot. lia. }
      rewrite E in Hfetch, Hrest. auto.
    + inversion Hres; subst. split.
      * intros url Hin. now apply throw_fetches_nothing in Hin.
      * intros task' E. discriminate E.
  - cbn [resume answer] in Hres. destruct (fetch world url0) as [r|err];
      inversion Hres; subst; split;
      try (intros url Hin; now apply throw_fetches_nothing in Hin);
      try (intros task' E; inversion E; exact I);
      try (intros task' E; discriminate E).
    intros url [E|[]]. discriminate E.
  - cbn [resume answer] in Hres. destruct (response_blob world r0) as [b|err];
      inversion Hres; subst; split;
      try (intros url Hin; now apply throw_fetches_nothing in Hin);
      try (intros task' E; discriminate E).
    intros url [E|[E|[E|[]]]]; discriminate E.
Qed.

Lemma schedule_advance (n : nat) :
  forall task,
    on_schedule world first task ->
    forall url, In (Fetch url) (fst (advance n world task)) ->
                download_of_report world first url.
Proof.
  induction n as [|n IH]; intros task Hon url Hin; [contradiction|].
  rewrite advance_step in Hin.
  destruct (resume_answer world task) as [[evs rest] E]. rewrite E in Hin.
  destruct (schedule_step task evs rest Hon E) as [Hfetch Hrest].
  destruct rest as [task'|]; [|now apply Hfetch].
  simpl in Hin. specialize (IH task' (Hrest task' eq_refl) url).
  destruct (advance n world task') as [evs' rest']. cbn [fst] in *.
  apply in_app_or in Hin as [Hin|Hin]; auto.
Qed.

Lemma schedule_proceed (n : nat) (stretch : Stretch) :
  (forall url, In (Fetch url) (fst stretch) ->
               download_of_report world first url) ->
  (forall task, snd stretch = Some task -> on_schedule world first task) ->
  forall url, In (Fetch url) (fst (proceed n world stretch)) ->
              download_of_report world first url.
Proof.
  intros Hfetch Hrest url Hin. destruct stretch as [evs [task|]];
    [|now apply Hfetch].
  unfold proceed in Hin.
  pose proof (schedule_advance n task (Hrest task eq_refl) url) as Hadv.
  destruct (advance n world task) as [evs' rest']. cbn [fst] in *.
  apply in_app_or in Hin as [Hin|Hin]; auto.
Qed.

End Downloads.

(** X7.  In every call of [generateAnimation], cut anywhere and whatever the
    world answers, an address is fetched only if an image is set, and it is
    then the download address of the finished operation: among the status
    reports of this run (the answer to the submission, then the answers to
    the status checks) the first final one is a done operation whose result
    URI is non-empty, and the address is that URI followed by "&key=" and
    the key. *)
Theorem downloads_fetch_the_reported_uri {host : Host} (n : nat)
    (world : World) (st : State) (url : string) :
  In (Fetch url) (fst (generateAnimation n world st)) ->
  exists img k operation link,
    selectedImage st = Some img /\
    report world
      (generateVideos world (build_request img (prompt st) (aspectRatio st))) k
    = Resolved operation /\
    (forall j, j < k ->
       final_report
         (report world
            (generateVideos world
               (build_request img (prompt st) (aspectRatio st))) j) = false) /\
    done operation = true /\
    video_uri operation = Some link /\
    link <> EmptyString /\
    url = (link ++ "&key=" ++ API_KEY)%string.
Proof.
  intros Hin. unfold generateAnimation, start in Hin.
  destruct (selectedImage st) as [[|c rest]|] eqn:Himg;
    try (simpl in Hin; contradiction).
  set (req := build_request (String c rest) (prompt st) (aspectRatio st)) in *.
  exists (String c rest).
  enough (H : download_of_report world (generateVideos world req) url).
  { destruct H as (k & operation & link & H). exists k, operation, link. auto. }
  unfold proceed in Hin.
  destruct (advance n world (AwaitGenerateVideos req)) as [evs' rest'] eqn:Hadv.
  cbn [fst] in Hin. apply in_app_or in Hin as [Hin|Hin].
  { simpl in Hin. intuition discriminate. }
  change evs' with (fst (evs', rest')) in Hin. rewrite <- Hadv in Hin.
  clear Hadv evs' rest'.
  destruct n as [|n]; [contradiction|].
  rewrite advance_step in Hin. cbn [resume answer] in Hin.
  destruct (generateVideos world req) as [operation|err] eqn:Hsubmit.
  - destruct (while_loop_schedule world (Resolved operation) 0 operation eq_refl)
      as [Hfetch Hrest]; [intros j Hj; lia|].
    now apply (schedule_proceed world (Resolved operation) n
                 (while_loop 0 operation)).
  - change (proceed n world (throw err)) with (throw err) in Hin.
    now apply throw_fetches_nothing in Hin.
Qed.

Lemma demo_download_is_the_reported_uri :
  exists img k operation link,
    selectedImage ready_state = Some img /\
    report (world_done_after 3 demo_link)
      (generateVideos (world_done_after 3 demo_link)
         (build_request img (prompt ready_state) (aspectRatio ready_state))) k
    = Resolved operation /\
    done operation = true /\
    video_uri operation = Some link /\
    "https://video.example/v1?alt=media&key=k3y"
    = (link ++ "&key=" ++ @API_KEY demo_host)%string.
Proof.
  destruct (downloads_fetch_the_reported_uri (host := demo_host) 9
              (world_done_after 3 demo_link) ready_state
              "https://video.example/v1?alt=media&key=k3y")
    as (img & k & operation & link & Himg & Hreport & _ & Hdone & Huri & _ & Hurl).
  - do 16 right. left. reflexivity.
  - exists img, k, operation, link. auto.
Defined.

(** ** The cadence of the status checks *)

Section Cadence.

Context {host : Host}.

Lemma armed_after_app (before : bool) (evs evs' : list Event) :
  armed_after before (evs ++ evs') = armed_after (armed_after before evs) evs'.
Proof. unfold armed_after. apply fold_left_app. Qed.

Lemma paced_from_app (evs evs' : list Event) :
  forall before,
    paced_from before (evs ++ evs') =
    paced_from before evs && paced_from (armed_after before evs) evs'.
Proof.
  induction evs as [|ev evs IH]; intros before; [reflexivity|].
  cbn [app paced_from]. rewrite IH, andb_assoc. reflexivity.
Qed.

Lemma armed_by_timer (before : bool) (ev : Event) :
  armed_by before ev = true -> ev = SetTimeout 10000.
Proof.
  destruct ev; simpl; try discriminate.
  intros H. apply Z.eqb_eq in H. now subst.
Qed.

(** In a paced trace a status check has the timer right before it, or
    stands first in a trace that continues one ending with the timer. *)
Lemma paced_check (before : list Event) :
  forall armed0 operation after,
    paced_from armed0 (before ++ GetVideosOperation operation :: after) = true ->
    (before = [] /\ armed0 = true) \/
    (exists before', before = before' ++ [SetTimeout 10000]).
Proof.
  induction before as [|ev before IH]; intros armed0 operation after H.
  - left. simpl in H. apply andb_true_iff in H as [H _]. auto.
  - right. cbn [app paced_from] in H. apply andb_true_iff in H as [_ H].
    destruct (IH _ _ _ H) as [[-> Harmed]|[before' ->]].
    + exists []. simpl. f_equal. now apply (armed_by_timer armed0).
    + now exists (ev :: before').
Qed.

Lemma while_loop_paced (i : nat) (operation : Operation) (before : bool) :
  paced_from before (fst (while_loop i operation)) = true /\
  forall task, snd (while_loop i operation) = Some task ->
               armed_after before (fst (while_loop i operation)) = armed task.
Proof.
  unfold while_loop, after_loop, throw, catch_block.
  destruct (done operation); cbn [negb].
  - destruct (video_uri operation) as [[|c link]|];
      (split; [reflexivity|intros task E; inversion E; reflexivity]).
  - split; [reflexivity|]. intros task E. inversion E. reflexivity.
Qed.

Lemma resume_paced (task : Await) (settlement : Settlement)
      (evs : list Event) (rest : option Await) :
  resume task settlement = Some (evs, rest) ->
  paced_from (armed task) evs = true /\
  forall task', rest = Some task' ->
                armed_after (armed task) evs = armed task'.
Proof.
  assert (Hthrow : forall err before,
             paced_from before (fst (throw err)) = true).
  { intros err before. unfold throw, catch_block.
    destruct (entity_not_found err); reflexivity. }
  intros Hres.
  destruct task, settlement as [[op|err]| |[r'|err]|[b|err]];
    simpl in Hres; inversion Hres; subst; clear Hres;
    try (split; [apply Hthrow|intros task' E; discriminate E]);
    try (split; [reflexivity|intros task' E; inversion E; reflexivity]).
  - pose proof (while_loop_paced 0 op false) as H. rewrite H0 in H. exact H.
  - pose proof (while_loop_paced messageIndex op false) as H.
    rewrite H0 in H. exact H.
Qed.

Lemma advance_paced (world : World) (n : nat) :
  forall task, paced_from (armed task) (fst (advance n world task)) = true.
Proof.
  induction n as [|n IH]; intros task; [reflexivity|].
  rewrite advance_step.
  destruct (resume_answer world task) as [[evs [task'|]] E]; rewrite E;
    destruct (resume_paced _ _ _ _ E) as [Hevs Harmed].
  - simpl. specialize (IH task').
    destruct (advance n world task') as [evs' rest']. cbn [fst] in *.
    now rewrite paced_from_app, Hevs, (Harmed task' eq_refl), IH.
  - exact Hevs.
Qed.

End Cadence.

Section Suspensions.

Context {host : Host}.

Lemma throw_checks_nothing (err : Error) (operation : Operation) :
  ~ In (GetVideosOperation operation) (fst (throw err)).
Proof.
  unfold throw, catch_block. cbn [fst].
  destruct (entity_not_found err); simpl; intuition discriminate.
Qed.

Lemma while_loop_checks_nothing (i : nat) (o operation : Operation) :
  ~ In (GetVideosOperation operation) (fst (while_loop i o)).
Proof.
  unfold while_loop, after_loop.
  destruct (done o); cbn [negb].
  - destruct (video_uri o) as [[|c link]|];
      try apply throw_checks_nothing. simpl. intuition discriminate.
  - simpl. intuition discriminate.
Qed.

(** A status check is made by one stretch only: the one that the timer
    resumes, which makes the check and nothing else, and stops on it. *)
Lemma resume_check (task : Await) (settlement : Settlement)
      (evs : list Event) (rest : option Await) (operation : Operation) :
  resume task settlement = Some (evs, rest) ->
  In (GetVideosOperation operation) evs ->
  exists i,
    task = AwaitTimeout i operation /\
    evs = [GetVideosOperation operation] /\
    rest = Some (AwaitGetVideosOperation i operation).
Proof.
  intros Hres Hin.
  destruct task as [req|i op|i op|url0|r0],
           settlement as [[o|err]| |[r'|err]|[b|err]];
    simpl in Hres; inversion Hres; subst; clear Hres;
    try (now apply throw_checks_nothing in Hin);
    try (exfalso; simpl in Hin; intuition discriminate).
  - exfalso. change evs with (fst (evs, rest)) in Hin. rewrite <- H0 in Hin.
    now apply while_loop_checks_nothing in Hin.
  - destruct Hin as [E|[]]. inversion E; subst. now exists i.
  - exfalso. change evs with (fst (evs, rest)) in Hin. rewrite <- H0 in Hin.
    now apply while_loop_checks_nothing in Hin.
Qed.

Lemma timer_only (i : nat) (operation : Operation) (settlement : Settlement) :
  resume (AwaitTimeout i operation) settlement <> None ->
  settlement = TimerFired.
Proof. destruct settlement; simpl; congruence. Qed.

(** A status check in the trace of a run marks two cuts of it, one
    settlement apart: suspended on the timer with the check not made, then
    suspended on the check. *)
Lemma advance_check (world : World) (n : nat) :
  forall task before operation after,
    fst (advance n world task)
    = before ++ GetVideosOperation operation :: after ->
    exists m i,
      m < n /\
      advance m world task = (before, Some (AwaitTimeout i operation)) /\
      advance (S m) world task =
        (before ++ [GetVideosOperation operation],
         Some (AwaitGetVideosOperation i operation)).
Proof.
  induction n as [|n IH]; intros task before operation after Hsplit.
  { destruct before; discriminate Hsplit. }
  rewrite advance_step in Hsplit.
  destruct (resume_answer world task) as [[evs rest] E]. rewrite E in Hsplit.
  assert (Hhere :
            forall tail,
              evs = before ++ GetVideosOperation operation :: tail ->
              exists m i,
                m < S n /\
                advance m world task = (before, Some (AwaitTimeout i operation)) /\
                advance (S m) world task =
                  (before ++ [GetVideosOperation operation],
                   Some (AwaitGetVideosOperation i operation))).
  { intros tail Hevs.
    destruct (resume_check task _ evs rest operation E) as (i & -> & Hone & ->).
    { rewrite Hevs. apply in_elt. }
    rewrite Hone in Hevs.
    destruct before as [|ev before]; [|destruct before; discriminate Hevs].
    exists 0, i. split; [lia|]. split; [reflexivity|].
    rewrite advance_step, E, proceed_zero, Hone. reflexivity. }
  destruct rest as [task'|]; [|now apply (Hhere after)].
  simpl in Hsplit.
  destruct (advance n world task') as [evs' rest'] eqn:Hadv. cbn [fst] in Hsplit.
  apply app_eq_app in Hsplit as [l [[Hevs Hafter]|[Hbefore Hevs']]].
  - destruct l as [|ev l].
    + (* the check opens the rest of the run *)
      rewrite app_nil_r in Hevs. simpl in Hafter. subst before.
      destruct (IH task' [] operation after) as (m & i & Hm & Hcut & Hnext).
      { rewrite Hadv. cbn [fst app]. congruence. }
      exists (S m), i. split; [lia|]. split.
      * rewrite advance_step, E. unfold proceed. rewrite Hcut.
        cbv beta iota. now rewrite app_nil_r.
      * rewrite advance_step, E. unfold proceed. rewrite Hnext.
        reflexivity.
    + simpl in Hafter. inversion Hafter; subst. now apply (Hhere l).
  - subst before.
    destruct (IH task' l operation after) as (m & i & Hm & Hcut & Hnext).
    { rewrite Hadv. exact Hevs'. }
    exists (S m), i. split; [lia|]. split.
    + rewrite advance_step, E. unfold proceed. now rewrite Hcut.
    + rewrite advance_step, E. unfold proceed. rewrite Hnext.
      now rewrite app_assoc.
Qed.

End Suspensions.

(** X8.  In every call of [generateAnimation], cut anywhere and whatever the
    world answers, each status check is made by the run coming back from
    the wait: one settlement before the check the run is suspended on the
    timer of line 117, its effects so far ending with that timer being set
    for 10000 ms and the check not yet made; nothing but the timer firing
    resumes it there; and that one settlement makes the check and leaves the
    run suspended on it.  So the loop never checks twice without waiting in
    between, and never before the first wait. *)
Theorem status_checks_wait_first {host : Host} (n : nat) (world : World)
    (st : State) (before after : list Event) (operation : Operation) :
  fst (generateAnimation n world st)
  = before ++ GetVideosOperation operation :: after ->
  exists m i before',
    m < n /\
    before = before' ++ [SetTimeout 10000] /\
    generateAnimation m world st = (before, Some (AwaitTimeout i operation)) /\
    (forall settlement,
        resume (AwaitTimeout i operation) settlement <> None ->
        settlement = TimerFired) /\
    generateAnimation (S m) world st =
      (before ++ [GetVideosOperation operation],
       Some (AwaitGetVideosOperation i operation)).
Proof.
  intros Hsplit.
  assert (Hpaced : paced_from false (fst (generateAnimation n world st)) = true).
  { unfold generateAnimation, start.
    destruct (selectedImage st) as [[|c rest]|]; try reflexivity.
    set (req := build_request (String c rest) (prompt st) (aspectRatio st)).
    simpl. pose proof (advance_paced world n (AwaitGenerateVideos req)) as H.
    destruct (advance n world (AwaitGenerateVideos req)) as [evs rest'].
    exact H. }
  assert (Htimer : exists before', before = before' ++ [SetTimeout 10000]).
  { rewrite Hsplit in Hpaced.
    destruct (paced_check _ _ _ _ Hpaced) as [[_ H]|H];
      [discriminate|exact H]. }
  destruct Htimer as [before' Htimer].
  unfold generateAnimation, start in *.
  destruct (selectedImage st) as [[|c rest]|];
    try (destruct before; discriminate Hsplit).
  set (req := build_request (String c rest) (prompt st) (aspectRatio st)) in *.
  unfold proceed in Hsplit.
  destruct (advance n world (AwaitGenerateVideos req)) as [evs rest'] eqn:Hadv.
  cbn [fst] in Hsplit.
  apply app_eq_app in Hsplit as [l [[Hevs Hafter]|[Hbefore Hevs']]].
  - destruct l as [|ev l].
    + rewrite app_nil_r in Hevs. simpl in Hafter.
      destruct (advance_check world n (AwaitGenerateVideos req) []
                  operation after) as (m & i & Hm & Hcut & Hnext).
      { rewrite Hadv. cbn [fst app]. congruence. }
      exists m, i, before'. split; [exact Hm|]. split; [exact Htimer|].
      unfold proceed. rewrite Hcut, Hnext, <- Hevs, app_nil_r.
      split; [reflexivity|]. split; [apply timer_only|reflexivity].
    + exfalso. simpl in Hafter. inversion Hafter; subst ev.
      assert (Hin : In (GetVideosOperation operation)
                      (before ++ GetVideosOperation operation :: l))
        by apply in_elt.
      rewrite <- Hevs in Hin. simpl in Hin. intuition discriminate.
  - destruct (advance_check world n (AwaitGenerateVideos req) l
                operation after) as (m & i & Hm & Hcut & Hnext).
    { rewrite Hadv. exact Hevs'. }
    exists m, i, before'. split; [exact Hm|]. split; [exact Htimer|].
    unfold proceed. rewrite Hcut, Hnext, Hbefore, app_assoc.
    split; [reflexivity|]. split; [apply timer_only|reflexivity].
Qed.

Lemma first_status_check_waits_first :
  exists m i before',
    m < 9 /\
    firstn 8 (fst (generateAnimation 9 (world_done_after 3 demo_link) ready_state))
    = before' ++ [SetTimeout 10000] /\
    generateAnimation m (world_done_after 3 demo_link) ready_state =
      (firstn 8 (fst (generateAnimation 9 (world_done_after 3 demo_link)
                        ready_state)),
       Some (AwaitTimeout i (pending "op"))).
Proof.
  destruct (status_checks_wait_first 9 (world_done_after 3 demo_link) ready_state
              (firstn 8 (fst (generateAnimation 9 (world_done_after 3 demo_link)
                                ready_state)))
              (skipn 9 (fst (generateAnimation 9 (world_done_after 3 demo_link)
                               ready_state)))
              (pending "op") eq_refl)
    as (m & i & before' & Hm & Htimer & Hcut & _).
  now exists m, i, before'.
Defined.

(** ** The credential flag in a session *)

Section Credential.

Context {host : Host}.

Lemma rejection_throws (task : Await) (settlement : Settlement) (err : Error)
      (stretch : Stretch) :
  rejection_of settlement = Some err ->
  resume task settlement = Some stretch ->
  stretch = throw err.
Proof.
  intros Hrej Hres.
  destruct task, settlement as [[op|e]| |[r'|e]|[b|e]];
    simpl in Hrej, Hres; congruence.
Qed.

Lemma while_loop_keeps_key (st : State) (i : nat) (operation : Operation) :
  hasApiKey (apply_all st (fst (while_loop i operation))) = hasApiKey st.
Proof.
  unfold while_loop, after_loop.
  destruct (done operation); cbn [negb]; [|reflexivity].
  destruct (video_uri operation) as [[|c link]|]; reflexivity.
Qed.

(** A settlement lowers the credential flag only if it is a rejection with
    the not-found signature. *)
Lemma resume_lowers_key (st : State) (task : Await) (settlement : Settlement)
      (evs : list Event) (rest : option Await) :
  resume task settlement = Some (evs, rest) ->
  hasApiKey (apply_all st evs) <> hasApiKey st ->
  exists err, rejection_of settlement = Some err /\ entity_not_found err = true.
Proof.
  intros Hres Hkey.
  destruct (rejection_of settlement) as [err|] eqn:Hrej.
  - exists err. split; [reflexivity|].
    pose proof (rejection_throws _ _ _ _ Hrej Hres) as E.
    unfold throw in E. inversion E; subst.
    destruct (throw_state st err) as (_ & _ & _ & _ & Hother).
    destruct (entity_not_found err); [reflexivity|].
    destruct (Hother eq_refl) as [Hsame _]. contradiction.
  - exfalso. apply Hkey.
    destruct task, settlement as [[op|e]| |[r'|e]|[b|e]];
      simpl in Hrej, Hres; inversion Hres; subst; clear Hres;
      try discriminate; try reflexivity.
    + change evs with (fst (evs, rest)). rewrite <- H0.
      apply while_loop_keeps_key.
    + change evs with (fst (evs, rest)). rewrite <- H0.
      apply while_loop_keeps_key.
Qed.

End Credential.

(** X9.  Once a credential is selected, one step of the session takes it
    away in three cases only: the credential check answers [false], the page
    is reloaded, or an awaited call of a run is rejected with an error whose
    message holds the not-found signature.  Nothing the user does on the
    main screen, and no other failure, brings the gate back. *)
Theorem key_lost_only_by {host : Host} (s : Session) (a : Action) :
  hasApiKey (ui s) = true ->
  hasApiKey (ui (session_step s a)) = false ->
  a = ApiKeyChecked (Resolved false) \/
  a = PageReloaded \/
  exists i settlement err,
    a = PromiseSettled i settlement /\
    rejection_of settlement = Some err /\
    entity_not_found err = true.
Proof.
  intros Hkey Hlost.
  destruct a as [sel|opened|result|text|idx|idx| |i settlement| ];
    simpl in Hlost.
  - destruct sel as [[|]|e]; simpl in Hlost; auto; congruence.
  - rewrite Hkey in Hlost. congruence.
  - congruence.
  - rewrite Hkey in Hlost. simpl in Hlost. congruence.
  - rewrite Hkey in Hlost.
    destruct (at_index PRESET_POSITIONS idx); simpl in Hlost; congruence.
  - rewrite Hkey in Hlost.
    destruct (at_index ASPECT_RATIOS idx) as [[]|]; simpl in Hlost; congruence.
  - destruct (generate_enabled (ui s)); [|congruence].
    unfold start in Hlost.
    destruct (selectedImage (ui s)) as [[|c rest]|]; simpl in Hlost;
      congruence.
  - right. right.
    destruct (at_index (tasks s) i) as [task|]; [|congruence].
    destruct (resume task settlement) as [[evs rest]|] eqn:Hres; [|congruence].
    simpl in Hlost.
    destruct (resume_lowers_key (ui s) _ _ _ _ Hres ltac:(congruence))
      as (err & Hrej & Hfound).
    now exists i, settlement, err.
  - auto.
Qed.

Lemma key_lost_by_expiry :
  exists i settlement err,
    PromiseSettled (host := demo_host) 0
      (OperationSettled (Rejected expired_key_error))
    = PromiseSettled i settlement /\
    rejection_of settlement = Some err /\
    entity_not_found err = true.
Proof.
  destruct (key_lost_only_by
              (session_run (host := demo_host) initial_session
                 success_then_failure)
              (PromiseSettled 0 (OperationSettled (Rejected expired_key_error)))
              eq_refl eq_refl) as [H|[H|H]];
    [discriminate H|discriminate H|exact H].
Defined.

(** X10.  In a reachable session, when the run in flight is rejected with
    the not-found signature, the gate comes up with no run left; selecting a
    key again brings the main screen back with the image, the prompt, the
    aspect ratio and the asset as they were before the rejection, the
    re-selection message still shown, and Generate enabled exactly when an
    image is set. *)
Theorem key_expiry_keeps_the_work {host : Host} (actions : list Action)
    (i : nat) (task : Await) (settlement : Settlement) (err : Error) :
  let s := session_run initial_session actions in
  at_index (tasks s) i = Some task ->
  resume task settlement <> None ->
  rejection_of settlement = Some err ->
  entity_not_found err = true ->
  let s1 := session_step s (PromiseSettled i settlement) in
  let s2 := session_step s1 (SelectKeyClicked (Resolved tt)) in
  render (ui s1) = GateScreen /\
  tasks s1 = [] /\
  tasks s2 = [] /\
  hasApiKey (ui s2) = true /\
  selectedImage (ui s2) = selectedImage (ui s) /\
  prompt (ui s2) = prompt (ui s) /\
  aspectRatio (ui s2) = aspectRatio (ui s) /\
  generatedVideoUrl (ui s2) = generatedVideoUrl (ui s) /\
  error (ui s2) =
    Some "API Key session expired or invalid. Please select a paid project key." /\
  generate_enabled (ui s2) = truthy (selectedImage (ui s)).
Proof.
  intros s Hat Hsome Hrej Hfound.
  pose proof (invariant_reachable actions) as Hinv. fold s in Hinv.
  destruct Hinv as [[Hnone _]|(task0 & Hone & _ & _)].
  { rewrite Hnone, at_index_nil in Hat. discriminate. }
  rewrite Hone in Hat. apply at_index_single in Hat as [-> ->].
  destruct (resume task0 settlement) as [stretch|] eqn:Hres; [|congruence].
  pose proof (rejection_throws _ _ _ _ Hrej Hres) as ->.
  assert (Es1 : session_step s (PromiseSettled 0 settlement) =
                {| ui := apply_all (ui s) (fst (throw err)); tasks := [] |}).
  { simpl. rewrite Hone. simpl. rewrite Hres. reflexivity. }
  intros s1 s2. subst s2 s1. rewrite Es1. clear Es1.
  destruct (throw_state (ui s) err) as (Hurl & Hbusy & _ & Hlow & _).
  destruct (Hlow Hfound) as [Hkey Herr].
  assert (Hin : Forall (fun ev => touches_input ev = false) (fst (throw err)))
    by exact (resume_keeps_inputs _ _ _ _ Hres).
  destruct (inputs_kept _ Hin (ui s)) as (Himg & Hprompt & Hratio).
  set (st1 := apply_all (ui s) (fst (throw err))) in *.
  unfold session_step. cbn [ui tasks]. rewrite Hkey.
  unfold render. rewrite Hkey. cbn [negb].
  unfold with_effects, handleSelectKey. cbn [fst ui tasks].
  unfold generate_enabled, render. cbn [apply_all fold_left apply hasApiKey
    selectedImage prompt aspectRatio generatedVideoUrl error isGenerating negb
    generate_disabled].
  rewrite Himg, Hbusy, orb_false_r, negb_involutive.
  repeat split; assumption.
Qed.

Lemma key_expiry_keeps_the_work_demo :
  let s := session_run (host := demo_host) initial_session success_then_failure in
  let s1 := session_step s
              (PromiseSettled 0 (OperationSettled (Rejected expired_key_error))) in
  let s2 := session_step s1 (SelectKeyClicked (Resolved tt)) in
  render (ui s1) = GateScreen /\
  selectedImage (ui s2) = Some demo_image /\
  generatedVideoUrl (ui s2) = Some "blob:bytes of video" /\
  generate_enabled (ui s2) = true.
Proof.
  destruct (key_expiry_keeps_the_work (host := demo_host) success_then_failure 0
              (AwaitGenerateVideos (build_request demo_image EmptyString "9:16"))
              (OperationSettled (Rejected expired_key_error)) expired_key_error
              eq_refl ltac:(discriminate) eq_refl eq_refl)
    as (Hgate & _ & _ & _ & Himg & _ & _ & Hurl & _ & Hen).
  repeat split; assumption.
Defined.

(** ** More invariants of the session *)

Section MoreSessions.

Context {host : Host}.

Lemma reachable_induction (J : Session -> Prop) :
  J initial_session ->
  (forall s a, session_invariant s -> J s -> J (session_step s a)) ->
  forall actions, J (session_run initial_session actions).
Proof.
  intros Hinit Hstep actions.
  assert (H : forall s, session_invariant s -> J s ->
                        session_invariant (session_run s actions) /\
                        J (session_run s actions)).
  { induction actions as [|a actions IH]; intros s Hinv HJ; [auto|].
    apply IH; [now apply invariant_step|now apply Hstep]. }
  apply H; [apply invariant_initial|exact Hinit].
Qed.

Lemma start_keeps_inputs (st : State) :
  Forall (fun ev => touches_input ev = false) (fst (start st)).
Proof.
  unfold start. destruct (selectedImage st) as [[|c rest]|];
    repeat constructor.
Qed.

Lemma resume_not_submission (task : Await) (settlement : Settlement)
      (evs : list Event) (req : Request) :
  resume task settlement <> Some (evs, Some (AwaitGenerateVideos req)).
Proof.
  assert (Hloop : forall i operation,
             while_loop i operation <> (evs, Some (AwaitGenerateVideos req))).
  { intros i operation. unfold while_loop, after_loop, throw.
    destruct (done operation); cbn [negb]; [|congruence].
    destruct (video_uri operation) as [[|c link]|]; congruence. }
  destruct task, settlement as [[op|err]| |[r'|err]|[b|err]]; simpl;
    try congruence; intros H; inversion H as [E]; now apply Hloop in E.
Qed.

Lemma start_request (st : State) (req : Request) :
  snd (start st) = Some (AwaitGenerateVideos req) ->
  In (aspectRatio st) (map snd ASPECT_RATIOS) ->
  well_formed req.
Proof.
  unfold start. destruct (selectedImage st) as [[|c rest]|]; try discriminate.
  cbn [snd]. intros E Hratio. inversion E; subst; clear E.
  unfold well_formed, build_request.
  cbn [model config numberOfVideos resolution config_aspectRatio request_prompt].
  repeat (split; [first [reflexivity|assumption]|]).
  destruct (prompt st) as [|p ps]; eexists; (split; [|reflexivity]);
    discriminate.
Qed.

Lemma requests_step (s : Session) (a : Action) :
  session_invariant s ->
  (In (aspectRatio (ui s)) (map snd ASPECT_RATIOS) /\
   forall req, In (AwaitGenerateVideos req) (tasks s) -> well_formed req) ->
  In (aspectRatio (ui (session_step s a))) (map snd ASPECT_RATIOS) /\
  forall req, In (AwaitGenerateVideos req) (tasks (session_step s a)) ->
              well_formed req.
Proof.
  intros Hinv [Hratio Hreqs].
  destruct a as [sel|opened|result|text|idx|idx| |i settlement| ].
  - destruct sel; auto.
  - simpl. destruct (hasApiKey (ui s)); [auto|]. destruct opened; auto.
  - auto.
  - simpl. destruct (hasApiKey (ui s)); auto.
  - simpl. destruct (hasApiKey (ui s)), (at_index PRESET_POSITIONS idx); auto.
  - simpl. destruct (hasApiKey (ui s)); [|auto].
    destruct idx as [|[|idx]]; simpl; auto.
    rewrite at_index_nil. auto.
  - destruct (generate_enabled (ui s)) eqn:Hen;
      [|simpl; rewrite Hen; auto].
    destruct (click_starts_one_run s Hinv Hen) as (_ & _ & req & -> & Hreq).
    cbn [ui tasks]. split.
    + now destruct (inputs_kept _ (start_keeps_inputs (ui s)) (ui s))
        as (_ & _ & ->).
    + intros req' [E|[]]. inversion E; subst.
      now apply (start_request (ui s)).
  - simpl. destruct (at_index (tasks s) i) as [task|] eqn:Hat; [|auto].
    destruct (resume task settlement) as [[evs rest]|] eqn:Hres; [|auto].
    destruct Hinv as [[Hnone _]|(task0 & Hone & _ & _)].
    { rewrite Hnone, at_index_nil in Hat. discriminate. }
    rewrite Hone in Hat. apply at_index_single in Hat as [-> ->].
    rewrite Hone. cbn [ui tasks firstn skipn app]. split.
    + now destruct (inputs_kept _ (resume_keeps_inputs _ _ _ _ Hres) (ui s))
        as (_ & _ & ->).
    + intros req Hin. rewrite app_nil_r in Hin.
      destruct rest as [task'|]; [|contradiction].
      destruct Hin as [->|[]].
      now apply resume_not_submission in Hres.
  - split; [simpl; auto|intros req []].
Qed.

Lemma phrase_not_empty (i : nat) :
  nth (i mod length loadingMessages) loadingMessages EmptyString <> EmptyString.
Proof.
  change (length loadingMessages) with 5.
  pose proof (Nat.mod_upper_bound i 5 ltac:(lia)) as Hlt.
  destruct (i mod 5) as [|[|[|[|[|k]]]]]; try lia; discriminate.
Qed.

Lemma throw_progress (st : State) (err : Error) :
  loadingStep (apply_all st (fst (throw err))) = EmptyString.
Proof. unfold throw. cbn [fst]. rewrite apply_all_app. reflexivity. Qed.

Lemma while_loop_progress (st : State) (i : nat) (operation : Operation) :
  match snd (while_loop i operation) with
  | Some _ =>
      loadingStep (apply_all st (fst (while_loop i operation))) <> EmptyString
  | None =>
      loadingStep (apply_all st (fst (while_loop i operation))) = EmptyString
  end.
Proof.
  unfold while_loop, after_loop.
  destruct (done operation); cbn [negb].
  - destruct (video_uri operation) as [[|c link]|];
      try apply throw_progress. simpl. discriminate.
  - cbn [snd fst]. apply phrase_not_empty.
Qed.

(** A settlement that ends the run empties the progress text; one that does
    not leaves a text in place. *)
Lemma resume_progress (st : State) (task : Await) (settlement : Settlement)
      (evs : list Event) (rest : option Await) :
  resume task settlement = Some (evs, rest) ->
  match rest with
  | Some _ =>
      loadingStep st <> EmptyString ->
      loadingStep (apply_all st evs) <> EmptyString
  | None => loadingStep (apply_all st evs) = EmptyString
  end.
Proof.
  intros Hres.
  destruct task, settlement as [[op|err]| |[r'|err]|[b|err]];
    simpl in Hres; inversion Hres; subst; clear Hres;
    try apply throw_progress; try reflexivity; try (intros H; exact H).
  - pose proof (while_loop_progress st 0 op) as H. rewrite H0 in H.
    destruct rest; [intros _|]; exact H.
  - pose proof (while_loop_progress st messageIndex op) as H. rewrite H0 in H.
    destruct rest; [intros _|]; exact H.
Qed.

Lemma progress_step (s : Session) (a : Action) :
  session_invariant s ->
  ((tasks s = [] -> loadingStep (ui s) = EmptyString) /\
   (tasks s <> [] -> loadingStep (ui s) <> EmptyString)) ->
  (tasks (session_step s a) = [] ->
   loadingStep (ui (session_step s a)) = EmptyString) /\
  (tasks (session_step s a) <> [] ->
   loadingStep (ui (session_step s a)) <> EmptyString).
Proof.
  intros Hinv [Hidle Hbusy].
  destruct a as [sel|opened|result|text|idx|idx| |i settlement| ].
  - destruct sel; auto.
  - simpl. destruct (hasApiKey (ui s)); [auto|]. destruct opened; auto.
  - auto.
  - simpl. destruct (hasApiKey (ui s)); auto.
  - simpl. destruct (hasApiKey (ui s)), (at_index PRESET_POSITIONS idx); auto.
  - simpl. destruct (hasApiKey (ui s)), (at_index ASPECT_RATIOS idx) as [[]|];
      auto.
  - destruct (generate_enabled (ui s)) eqn:Hen;
      [|simpl; rewrite Hen; auto].
    destruct (click_starts_one_run s Hinv Hen) as (_ & Himg & req & -> & _).
    cbn [ui tasks]. split; [discriminate|]. intros _.
    unfold start. destruct (selectedImage (ui s)) as [[|c rest]|];
      first [discriminate|simpl; discriminate].
  - simpl. destruct (at_index (tasks s) i) as [task|] eqn:Hat; [|auto].
    destruct (resume task settlement) as [[evs rest]|] eqn:Hres; [|auto].
    destruct Hinv as [[Hnone _]|(task0 & Hone & _ & _)].
    { rewrite Hnone, at_index_nil in Hat. discriminate. }
    rewrite Hone in Hat. apply at_index_single in Hat as [-> ->].
    pose proof (resume_progress (ui s) _ _ _ _ Hres) as Hprog.
    rewrite Hone. cbn [ui tasks firstn skipn app]. rewrite app_nil_r.
    destruct rest as [task'|]; cbn [opt_to_list].
    + split; [discriminate|]. intros _. apply Hprog, Hbusy.
      rewrite Hone. discriminate.
    + split; [intros _; exact Hprog|congruence].
  - split; [reflexivity|intros H; now elim H].
Qed.

End MoreSessions.

(** X11.  In every reachable session the aspect ratio is one of the two on
    offer, and every submission still awaiting its answer is well formed:
    the fixed model, one video, the 720p tier, one of the two aspect ratios,
    and a non-empty text after "Animate this character: ". *)
Theorem requests_are_well_formed {host : Host} (actions : list Action) :
  let s := session_run initial_session actions in
  In (aspectRatio (ui s)) (map snd ASPECT_RATIOS) /\
  forall req, In (AwaitGenerateVideos req) (tasks s) -> well_formed req.
Proof.
  apply (reachable_induction
           (fun s => In (aspectRatio (ui s)) (map snd ASPECT_RATIOS) /\
                     forall req, In (AwaitGenerateVideos req) (tasks s) ->
                                 well_formed req)).
  - split; [simpl; auto|intros req []].
  - exact requests_step.
Qed.

(** X12.  In every reachable session the progress text is non-empty exactly
    while the busy flag is up, that is exactly while a run is in flight: the
    overlay never shows an empty step, and no step text is left behind when
    a run has ended. *)
Theorem progress_text_follows_the_run {host : Host} (actions : list Action) :
  let s := session_run initial_session actions in
  (isGenerating (ui s) = true <-> loadingStep (ui s) <> EmptyString) /\
  (tasks s = [] <-> loadingStep (ui s) = EmptyString).
Proof.
  intros s.
  pose proof (invariant_reachable actions) as Hinv. fold s in Hinv.
  pose proof (reachable_induction
                (fun s => (tasks s = [] -> loadingStep (ui s) = EmptyString) /\
                          (tasks s <> [] -> loadingStep (ui s) <> EmptyString))
                (conj (fun _ => eq_refl) (fun H => False_ind _ (H eq_refl)))
                progress_step actions) as [Hidle Hbusy].
  fold s in Hidle, Hbusy.
  destruct Hinv as [[Hnone Hflag]|(task & Hone & Hflag & _)].
  - specialize (Hidle Hnone). rewrite Hflag, Hidle, Hnone.
    repeat split; congruence.
  - assert (Hne : tasks s <> []) by (rewrite Hone; discriminate).
    specialize (Hbusy Hne). rewrite Hflag. repeat split; congruence.
Qed.

Lemma submitted_request_is_well_formed :
  well_formed (build_request demo_image EmptyString "9:16").
Proof.
  apply (proj2 (requests_are_well_formed (host := demo_host)
                  [SelectKeyClicked (Resolved tt); ImageLoaded (Some demo_image);
                   GenerateClicked])).
  left. reflexivity.
Defined.

(** ** What is on screen, continued *)


(** ** The presets (lines 24-30, 238-246) *)

(** X14.  On the main screen a click on a preset replaces the prompt by the
    preset, whatever was typed before, and touches nothing else; with an
    image set, the next submission carries "Animate this character: "
    followed by the preset, never the default phrase. *)
Theorem preset_is_sent_verbatim {host : Host} (s : Session) (idx : nat)
    (preset : string) :
  hasApiKey (ui s) = true ->
  at_index PRESET_POSITIONS idx = Some preset ->
  let s' := session_step s (PresetClicked idx) in
  prompt (ui s') = preset /\
  tasks s' = tasks s /\
  selectedImage (ui s') = selectedImage (ui s) /\
  aspectRatio (ui s') = aspectRatio (ui s) /\
  (truthy (selectedImage (ui s)) = true ->
   exists req,
     snd (start (ui s')) = Some (AwaitGenerateVideos req) /\
     request_prompt req = ("Animate this character: " ++ preset)%string).
Proof.
  intros Hkey Hat. simpl. rewrite Hkey, Hat. cbn [with_effects ui tasks].
  repeat (split; [reflexivity|]). intros Himg.
  unfold start. cbn [apply_all fold_left apply selectedImage prompt aspectRatio].
  destruct (selectedImage (ui s)) as [[|c rest]|]; try discriminate.
  eexists. split; [reflexivity|]. cbn [build_request request_prompt].
  destruct idx as [|[|[|[|[|idx]]]]]; simpl in Hat; inversion Hat;
    try reflexivity.
  now rewrite at_index_nil in Hat.
Qed.

Lemma third_preset_is_sent_verbatim :
  let s := session_run (host := demo_host) initial_session
             [SelectKeyClicked (Resolved tt); ImageLoaded (Some demo_image);
              PromptTyped "wave"] in
  let s' := session_step s (PresetClicked 2) in
  exists req,
    snd (start (ui s')) = Some (AwaitGenerateVideos (host := demo_host) req) /\
    request_prompt req =
      "Animate this character: Giving a professional presentation, gesturing towards a digital screen".
Proof.
  apply (preset_is_sent_verbatim (host := demo_host)
           (session_run (host := demo_host) initial_session
              [SelectKeyClicked (Resolved tt); ImageLoaded (Some demo_image);
               PromptTyped "wave"])
           2 _ eq_refl eq_refl).
  reflexivity.
Defined.

Lemma split_head (sep : ascii) (s : string) :
  exists head rest,
    split sep s = head :: rest /\
    mentions sep head = false /\
    ((rest = [] /\ s = head) \/
     (exists tail, s = (head ++ String sep tail)%string)).
Proof.
  destruct (mentions sep s) eqn:Hm.
  - destruct (first_mention _ _ Hm) as (a & b & -> & Ha).
    exists a, (split sep b). rewrite split_at_first by assumption.
    repeat split; auto. right. now exists b.
  - exists s, []. rewrite split_without by assumption. auto.
Qed.

(** X15.  The text on a preset button is the preset up to its first comma,
    followed by three dots: the whole preset when it has no comma. *)
Theorem preset_label_stops_at_comma (preset : string) :
  exists head,
    preset_label preset = (head ++ "...")%string /\
    mentions "," head = false /\
    (preset = head \/ exists tail, preset = (head ++ "," ++ tail)%string).
Proof.
  unfold preset_label.
  destruct (split_head "," preset) as (head & rest & -> & Hhead & Hshape).
  exists head. repeat split; [assumption|].
  destruct Hshape as [[_ E]|[tail E]]; [now left|right; now exists tail].
Qed.

(** ** Who lets the user past the gate *)

(** X16.  The gate is passed in two ways only: the credential check answers
    [true], or a key selection made on the gate screen resolves.  No run and
    no other action raises the credential flag. *)
Theorem gate_passed_only_by {host : Host} (s : Session) (a : Action) :
  hasApiKey (ui s) = false ->
  hasApiKey (ui (session_step s a)) = true ->
  a = ApiKeyChecked (Resolved true) \/
  exists opened, a = SelectKeyClicked (Resolved opened).
Proof.
  intros Hgate Hpast.
  destruct a as [sel|opened|result|text|idx|idx| |i settlement| ];
    simpl in Hpast.
  - destruct sel as [[|]|e]; simpl in Hpast; auto; congruence.
  - rewrite Hgate in Hpast. destruct opened as [u|e]; simpl in Hpast;
      [right; now exists u|congruence].
  - congruence.
  - rewrite Hgate in Hpast. congruence.
  - rewrite Hgate in Hpast. congruence.
  - rewrite Hgate in Hpast. congruence.
  - unfold generate_enabled, render in Hpast. rewrite Hgate in Hpast.
    simpl in Hpast. congruence.
  - exfalso.
    destruct (at_index (tasks s) i) as [task|]; [|congruence].
    destruct (resume task settlement) as [[evs rest]|] eqn:Hres; [|congruence].
    simpl in Hpast.
    destruct (resume_lowers_key (ui s) _ _ _ _ Hres ltac:(congruence))
      as (err & Hrej & Hfound).
    pose proof (rejection_throws _ _ _ _ Hrej Hres) as E.
    unfold throw in E. inversion E; subst.
    destruct (throw_state (ui s) err) as (_ & _ & _ & Hlow & _).
    destruct (Hlow Hfound) as [Hfalse _].
    unfold throw in Hfalse. cbn [fst] in Hfalse. congruence.
  - discriminate.
Qed.

Lemma gate_passed_by_selection :
  exists opened,
    SelectKeyClicked (host := demo_host) (Resolved tt)
    = SelectKeyClicked (Resolved opened).
Proof.
  destruct (gate_passed_only_by (host := demo_host) initial_session
              (SelectKeyClicked (Resolved tt)) eq_refl eq_refl) as [H|H];
    [discriminate H|exact H].
Defined.

(** ** How many calls a run makes *)

Section Counting.

Context {host : Host}.

Lemma count_app (f : Event -> bool) (evs evs' : list Event) :
  count f (evs ++ evs') = count f evs + count f evs'.
Proof. unfold count. now rewrite filter_app, length_app. Qed.

Lemma while_loop_budget (i : nat) (operation : Operation) :
  let (evs, rest) := while_loop i operation in
  count is_submission evs = 0 /\
  count is_download evs + downloads_left rest <= 1 /\
  count is_blob_read evs + reads_left rest <= 1.
Proof.
  unfold while_loop, after_loop.
  destruct (done operation); cbn [negb].
  - destruct (video_uri operation) as [[|c link]|];
      unfold throw, catch_block, count; simpl; lia.
  - unfold count. simpl. lia.
Qed.

Lemma resume_budget (task : Await) (settlement : Settlement)
      (evs : list Event) (rest : option Await) :
  resume task settlement = Some (evs, rest) ->
  count is_submission evs = 0 /\
  count is_download evs + downloads_left rest <= downloads_left (Some task) /\
  count is_blob_read evs + reads_left rest <= reads_left (Some task).
Proof.
  intros Hres.
  destruct task, settlement as [[op|err]| |[r'|err]|[b|err]];
    simpl in Hres; inversion Hres; subst; clear Hres;
    try (destruct (entity_not_found err); unfold count; simpl; lia);
    try (unfold count; simpl; lia);
    match goal with
    | H : while_loop ?i ?o = _ |- _ =>
        pose proof (while_loop_budget i o) as Hb; rewrite H in Hb; exact Hb
    end.
Qed.

Lemma advance_budget (world : World) (n : nat) :
  forall task,
    let (evs, rest) := advance n world task in
    count is_submission evs = 0 /\
    count is_download evs + downloads_left rest <= downloads_left (Some task) /\
    count is_blob_read evs + reads_left rest <= reads_left (Some task).
Proof.
  induction n as [|n IH]; intros task.
  - cbn [advance]. unfold count. simpl. lia.
  - rewrite advance_step.
    destruct (resume_answer world task) as [[evs [task'|]] E]; rewrite E;
      destruct (resume_budget _ _ _ _ E) as (Hsub & Hdown & Hread).
    + unfold proceed. specialize (IH task').
      destruct (advance n world task') as [evs' rest'].
      destruct IH as (Hsub' & Hdown' & Hread').
      rewrite !count_app. lia.
    + unfold proceed. auto.
Qed.

End Counting.

(** X17.  A call of [generateAnimation], cut anywhere and whatever the world
    answers, submits exactly once when an image is set and not at all
    otherwise, starts at most one download and reads at most one blob. *)
Theorem one_submission_one_download {host : Host} (n : nat) (world : World)
    (st : State) :
  let evs := fst (generateAnimation n world st) in
  count is_submission evs = (if truthy (selectedImage st) then 1 else 0) /\
  count is_download evs <= 1 /\
  count is_blob_read evs <= 1.
Proof.
  unfold generateAnimation, start.
  destruct (selectedImage st) as [[|c rest]|]; simpl;
    try (unfold count; simpl; lia).
  set (req := build_request (String c rest) (prompt st) (aspectRatio st)).
  pose proof (advance_budget world n (AwaitGenerateVideos req)) as H.
  destruct (advance n world (AwaitGenerateVideos req)) as [evs rest'].
  destruct H as (Hsub & Hdown & Hread). cbn [fst].
  unfold count in *. simpl. simpl in Hdown, Hread. lia.
Qed.
